(** * The 2048 rules engine of [sl29/games/_2048.py]

    A shallow embedding of the module: Python integers are [Z], a board is a
    list of rows, a row is a list of cells, and [0] is the empty cell.
    Indexing that Python would reject with [IndexError] is kept visible in an
    error monad; the two [while] loops run on fuel, and the monad tells an
    exhausted fuel apart from a raised exception. The two calls to the
    [random] module are replaced by explicit draws handed to the functions. *)

From Stdlib Require Import ZArith QArith.QArith_base Lia.
From stdpp Require Import base tactics option list strings.

Local Open Scope Z_scope.

(** ** Outcomes of a Python call *)

Inductive exn : Type := IndexError.

Inductive outcome (A : Type) : Type :=
| Ret (a : A)
| Raise (e : exn)
| OutOfFuel.

Arguments Ret {A} a.
Arguments Raise {A} e.
Arguments OutOfFuel {A}.

#[global] Instance outcome_ret : MRet outcome := fun A a => Ret a.

#[global] Instance outcome_bind : MBind outcome := fun A B f m =>
  match m with
  | Ret a => f a
  | Raise e => Raise e
  | OutOfFuel => OutOfFuel
  end.

(** The results of [f] along [l], from left to right: what a loop that
    appends [f x] at each turn has collected when it ends. *)
Fixpoint for_each {A B : Type} (f : A → outcome B) (l : list A) : outcome (list B) :=
  match l with
  | [] => Ret []
  | x :: l' => y ← f x; ys ← for_each f l'; Ret (y :: ys)
  end.

(** A [for x in l] loop whose body updates the loop's variables [s]. *)
Fixpoint for_loop {A S : Type} (body : S → A → outcome S) (l : list A) (s : S)
  : outcome S :=
  match l with
  | [] => Ret s
  | x :: l' => s' ← body s x; for_loop body l' s'
  end.

(** ** Python list primitives *)

Module Py.

(** The position a possibly negative index [i] designates in a list of
    length [n]: Python counts negative indices from the end. *)
Definition norm (n : nat) (i : Z) : Z :=
  if i <? 0 then i + Z.of_nat n else i.

(** [l[i]] *)
Definition getitem {A : Type} (l : list A) (i : Z) : outcome A :=
  let j := norm (length l) i in
  if (0 <=? j) && (j <? Z.of_nat (length l)) then
    match l !! Z.to_nat j with
    | Some x => Ret x
    | None => Raise IndexError
    end
  else Raise IndexError.

(** [l[i] = x] *)
Definition setitem {A : Type} (l : list A) (i : Z) (x : A) : outcome (list A) :=
  let j := norm (length l) i in
  if (0 <=? j) && (j <? Z.of_nat (length l)) then Ret (<[Z.to_nat j := x]> l)
  else Raise IndexError.

(** [l.insert(i, x)]: the index is clamped to the list, never rejected. *)
Definition insert {A : Type} (l : list A) (i : Z) (x : A) : list A :=
  let j := norm (length l) i in
  let k := Z.to_nat (Z.min (Z.max j 0) (Z.of_nat (length l))) in
  take k l ++ x :: drop k l.

(** [l.pop(i)]: the removed element and the remaining list. *)
Definition pop {A : Type} (l : list A) (i : Z) : outcome (A * list A) :=
  let j := norm (length l) i in
  if (0 <=? j) && (j <? Z.of_nat (length l)) then
    match l !! Z.to_nat j with
    | Some x => Ret (x, delete (Z.to_nat j) l)
    | None => Raise IndexError
    end
  else Raise IndexError.

(** [int(r)] for a float [r]: truncation towards zero. *)
Definition int (r : Q) : Z := Z.quot (Qnum r) (Z.pos (Qden r)).

(** [range(n)] *)
Definition range (n : nat) : list nat := seq 0 n.

(** [random.choice(l)], the generator's draw being [k]: any element may come
    out, and an empty list is rejected. *)
Definition choice {A : Type} (l : list A) (k : nat) : outcome A :=
  match l !! (k `mod` length l)%nat with
  | Some x => Ret x
  | None => Raise IndexError
  end.

End Py.

(** ** The module *)

Definition TAILLE : nat := 4.

(** A board: the list of its rows. *)
Abbreviation plateau := (list (list Z)).

(** [_supprimer_zeros] *)
Definition _supprimer_zeros (l : list Z) : list Z :=
  filter (λ v, v ≠ 0) l.

(** The [while v < lenght] loop of [_fusionner] on its five variables. Each
    turn either merges (the list shrinks by one, [v] stays) or moves on. The
    list is the one the caller handed in, changed in place. *)
Fixpoint fusionner_boucle (fuel : nat) (l : list Z) (last points lenght v : Z)
  : outcome (list Z * Z) :=
  if v <? lenght then
    match fuel with
    | O => OutOfFuel
    | S fuel' =>
        x ← Py.getitem l v;
        if x =? last then
          a ← Py.getitem l (v - 1);
          let points := points + a * 2 in
          b ← Py.getitem l (v - 1);
          let l := Py.insert l (v - 1) (b * 2) in
          '(_, l) ← Py.pop l v;
          '(_, l) ← Py.pop l v;
          fusionner_boucle fuel' l 0 points (lenght - 1) v
        else
          y ← Py.getitem l v;
          fusionner_boucle fuel' l y points lenght (v + 1)
    end
  else Ret (l, points).

(** [_fusionner]: [lenght - v] drops by one at each turn, so [len(ligne)]
    turns are all the loop can make. *)
Definition _fusionner (l : list Z) : outcome (list Z * Z) :=
  fusionner_boucle (length l) l 0 0 (Z.of_nat (length l)) 0.

(** The [while len(ligne) < TAILLE] loop of [_completer_zeros]. *)
Fixpoint completer_boucle (fuel : nat) (l : list Z) : outcome (list Z) :=
  if (length l <? TAILLE)%nat then
    match fuel with
    | O => OutOfFuel
    | S fuel' => completer_boucle fuel' (l ++ [0])
    end
  else Ret l.

(** [_completer_zeros] *)
Definition _completer_zeros (l : list Z) : outcome (list Z) :=
  completer_boucle TAILLE l.

(** The body of the [for l in plateau] loop of [_deplacer_gauche]: one row
    compacted, merged and padded, with the points of its merges. *)
Definition deplacer_ligne (l : list Z) : outcome (list Z * Z) :=
  let l_sans_zero := _supprimer_zeros l in
  '(l_fusionnee, points) ← _fusionner l_sans_zero;
  l_finale ← _completer_zeros l_fusionnee;
  Ret (l_finale, points).

(** [_deplacer_gauche] *)
Definition _deplacer_gauche (p : plateau) : outcome (plateau * Z) :=
  for_loop
    (λ '(nouveau_plateau, nouveaux_points) l,
       '(l_finale, points) ← deplacer_ligne l;
       Ret (nouveau_plateau ++ [l_finale], nouveaux_points + points))
    p ([], 0).

(** [_inverser_lignes] *)
Definition _inverser_lignes (p : plateau) : plateau :=
  fold_left (λ nouveau_plateau l, nouveau_plateau ++ [reverse l]) p [].

(** [_deplacer_droite] *)
Definition _deplacer_droite (p : plateau) : outcome (plateau * Z) :=
  let p_inverse := _inverser_lignes p in
  '(p_final, nouveaux_points) ← _deplacer_gauche p_inverse;
  Ret (_inverser_lignes p_final, nouveaux_points).

(** [_transposer] *)
Definition _transposer (p : plateau) : outcome plateau :=
  for_loop
    (λ nouveau_plateau n,
       nouvelle_ligne ←
         for_loop (λ nouvelle_ligne l,
                     x ← Py.getitem l (Z.of_nat n); Ret (nouvelle_ligne ++ [x]))
                  p [];
       Ret (nouveau_plateau ++ [nouvelle_ligne]))
    (Py.range TAILLE) [].

(** [_deplacer_haut] *)
Definition _deplacer_haut (p : plateau) : outcome (plateau * Z) :=
  p_transpose ← _transposer p;
  '(p_final, nouveaux_points) ← _deplacer_gauche p_transpose;
  t ← _transposer p_final;
  Ret (t, nouveaux_points).

(** [_deplacer_bas] *)
Definition _deplacer_bas (p : plateau) : outcome (plateau * Z) :=
  p_transpose ← _transposer p;
  '(p_final, nouveaux_points) ← _deplacer_droite p_transpose;
  t ← _transposer p_final;
  Ret (t, nouveaux_points).

(** [_creer_plateau_vide] *)
Definition _creer_plateau_vide : plateau :=
  (λ _, (λ _, 0) <$> Py.range TAILLE) <$> Py.range TAILLE.

(** [plateau[i][j]] *)
Definition case_ (p : plateau) (i j : nat) : outcome Z :=
  l ← Py.getitem p (Z.of_nat i); Py.getitem l (Z.of_nat j).

(** [_get_cases_vides] *)
Definition _get_cases_vides (p : plateau) : outcome (list (nat * nat)) :=
  for_loop
    (λ result i,
       current ←
         for_loop (λ current j,
                     x ← case_ p i j;
                     Ret (if x =? 0 then current ++ [(i, j)] else current))
                  (Py.range TAILLE) [];
       Ret (result ++ current))
    (Py.range TAILLE) [].

(** [_ajouter_tuile], with [k] the draw behind [random.choice] and [r] the
    float returned by [random.random()]. The deep copy leaves the argument
    as it was; rows are taken to be distinct objects. *)
Definition _ajouter_tuile (p : plateau) (k : nat) (r : Q) : outcome plateau :=
  vides ← _get_cases_vides p;
  if bool_decide (vides = []) then Ret p
  else
    let result := p in
    vides' ← _get_cases_vides result;
    '(i, j) ← Py.choice vides' k;
    l ← Py.getitem result (Z.of_nat i);
    l' ← Py.setitem l (Z.of_nat j) (2 + 2 * Py.int r);
    Py.setitem result (Z.of_nat i) l'.

(** [nouvelle_partie], with the draws of its two spawns. *)
Definition nouvelle_partie (k1 : nat) (r1 : Q) (k2 : nat) (r2 : Q)
  : outcome (plateau * Z) :=
  let p := _creer_plateau_vide in
  p ← _ajouter_tuile p k1 r1;
  p ← _ajouter_tuile p k2 r2;
  Ret (p, 0).

(** The inner loop of the first scan of [_partie_terminee], down column [n]:
    [true] when a cell equal to [last] is met, where the function returns
    [False]. *)
Fixpoint paire_colonne (p : plateau) (n : nat) (vs : list nat) (last : Z)
  : outcome bool :=
  match vs with
  | [] => Ret false
  | v :: vs' =>
      x ← case_ p v n;
      if x =? last then Ret true
      else y ← case_ p v n; paire_colonne p n vs' y
  end.

(** The inner loop of the second scan, along row [n]. *)
Fixpoint paire_ligne (p : plateau) (n : nat) (vs : list nat) (last : Z)
  : outcome bool :=
  match vs with
  | [] => Ret false
  | v :: vs' =>
      x ← case_ p n v;
      if x =? last then Ret true
      else y ← case_ p n v; paire_ligne p n vs' y
  end.

(** An outer [for n in range(TAILLE)] loop around one of the two scans. *)
Fixpoint balayage (scan : nat → outcome bool) (ns : list nat) : outcome bool :=
  match ns with
  | [] => Ret false
  | n :: ns' => trouve ← scan n; if trouve : bool then Ret true else balayage scan ns'
  end.

(** [_partie_terminee] *)
Definition _partie_terminee (p : plateau) : outcome bool :=
  vides ← _get_cases_vides p;
  if negb (bool_decide (vides = [])) then Ret false
  else
    c ← balayage (λ n, paire_colonne p n (Py.range TAILLE) 0) (Py.range TAILLE);
    if c : bool then Ret false
    else
      l ← balayage (λ n, paire_ligne p n (Py.range TAILLE) 0) (Py.range TAILLE);
      if l : bool then Ret false else Ret true.

(** Lines 37 to 47 of [jouer_coup]: the four tests on [direction], each of
    which may rebind [result] and [nouveaux_points]. *)
Definition coup (p : plateau) (direction : string) : outcome (plateau * Z) :=
  let result := p in
  let nouveaux_points := 0 in
  '(result, nouveaux_points) ←
    (if String.eqb direction "g" then _deplacer_gauche p
     else Ret (result, nouveaux_points));
  '(result, nouveaux_points) ←
    (if String.eqb direction "d" then _deplacer_droite p
     else Ret (result, nouveaux_points));
  '(result, nouveaux_points) ←
    (if String.eqb direction "h" then _deplacer_haut p
     else Ret (result, nouveaux_points));
  '(result, nouveaux_points) ←
    (if String.eqb direction "b" then _deplacer_bas p
     else Ret (result, nouveaux_points));
  Ret (result, nouveaux_points).

(** [jouer_coup]. The returned tuple is built from left to right: the spawn
    first, then the terminal test, both on [result]. *)
Definition jouer_coup (p : plateau) (direction : string) (k : nat) (r : Q)
  : outcome (plateau * Z * bool) :=
  let ancient := p in
  '(result, nouveaux_points) ← coup p direction;
  if bool_decide (ancient = result) then
    fini ← _partie_terminee result;
    Ret (result, nouveaux_points, fini)
  else
    nouveau ← _ajouter_tuile result k r;
    fini ← _partie_terminee result;
    Ret (nouveau, nouveaux_points, fini).

(** ** The transforms and the moves in the words of the specification *)

Module Spec.

(** Reverse the order of the cells within each row. *)
Definition reverse_rows (b : plateau) : plateau := reverse <$> b.

(** Swap rows and columns: cell [j] of row [i] goes to cell [i] of
    row [j]. *)
Definition transpose (b : plateau) : plateau :=
  (λ j, (λ row, row !!! j) <$> b) <$> seq 0 TAILLE.

(** A move made of a transform, an inner move and the same transform
    again; the points are those of the inner move. *)
Definition via (t : plateau → plateau) (inner : plateau → outcome (plateau * Z))
  (b : plateau) : outcome (plateau * Z) :=
  '(m, points) ← inner (t b); Ret (t m, points).

(** Move left is the move of the source; the other three are derived. *)
Definition move_left : plateau → outcome (plateau * Z) := _deplacer_gauche.
Definition move_right : plateau → outcome (plateau * Z) :=
  via reverse_rows move_left.
Definition move_up : plateau → outcome (plateau * Z) :=
  via transpose move_left.
Definition move_down : plateau → outcome (plateau * Z) :=
  via transpose move_right.

End Spec.

(** ** Closed forms and predicates used in the proofs *)

(** What one pass of the merge loop leaves of a line without zeros, and the
    points it counts: the head merges with its successor when they are equal
    and the pass carries on behind the pair. *)
Fixpoint fusion (l : list Z) : list Z * Z :=
  match l with
  | [] => ([], 0)
  | x :: l' =>
      match l' with
      | [] => ([x], 0)
      | y :: l'' =>
          if x =? y then (x * 2 :: (fusion l'').1, x * 2 + (fusion l'').2)
          else (x :: (fusion l').1, (fusion l').2)
      end
  end.

(** A line padded with zeros up to [TAILLE] cells. *)
Definition complete (l : list Z) : list Z :=
  l ++ replicate (TAILLE - length l) 0.

(** The row a leftward move makes of [l], with its points. *)
Definition deplace (l : list Z) : list Z * Z :=
  let f := fusion (_supprimer_zeros l) in (complete f.1, f.2).

#[global] Arguments deplace : simpl never.

Definition somme (l : list Z) : Z := foldr Z.add 0 l.

Definition gauche (p : plateau) : plateau * Z :=
  ((λ l, (deplace l).1) <$> p, somme ((λ l, (deplace l).2) <$> p)).

(** A move made between a transform of the board and the same transform of
    what the move returns. *)
Definition conjugue (t : plateau → plateau) (m : plateau → plateau * Z)
  (p : plateau) : plateau * Z :=
  let r := m (t p) in (t r.1, r.2).

Definition droite : plateau → plateau * Z := conjugue Spec.reverse_rows gauche.
Definition haut : plateau → plateau * Z := conjugue Spec.transpose gauche.
Definition bas : plateau → plateau * Z := conjugue Spec.transpose droite.

(** A board of [TAILLE] rows of [TAILLE] cells. *)
Definition bien_forme (p : plateau) : Prop :=
  length p = TAILLE ∧ Forall (λ l, length l = TAILLE) p.

(** A board with an empty cell. *)
Definition a_vide (p : plateau) : Prop := Exists (λ l, 0 ∈ l) p.

(** A move, in closed form, is sound when on a well-formed board it returns
    a well-formed board, earns nothing if it changes nothing, and leaves an
    empty cell if it changes something. *)
Definition mouvement_correct (m : plateau → plateau * Z) : Prop :=
  ∀ p, bien_forme p →
       bien_forme (m p).1
       ∧ ((m p).1 = p → (m p).2 = 0)
       ∧ ((m p).1 ≠ p → a_vide (m p).1).

(** The cell at row [i] and column [j], when the board has one. *)
Definition cellule (p : plateau) (i j : nat) : option Z :=
  l ← p !! i; l !! j.

(** The empty cells of row [i], from left to right. *)
Definition vides_ligne (p : plateau) (i : nat) : list (nat * nat) :=
  (λ j, (i, j)) <$> filter (λ j, cellule p i j = Some 0) (seq 0 TAILLE).

(** The empty cells of the board, row by row. *)
Definition cases_vides (p : plateau) : list (nat * nat) :=
  mjoin (vides_ligne p <$> seq 0 TAILLE).

(** A draw of [random.random()]: a number of the interval from 0 to 1, 1
    excluded. *)
Definition tirage (r : Q) : Prop := Qle 0 r ∧ Qlt r 1.

(** What one inner scan answers on the cells it reads, in order: [true] when
    the first cell equals [last] or two neighbours are equal. *)
Fixpoint paire (cells : list Z) (last : Z) : bool :=
  match cells with
  | [] => false
  | x :: cells' => (x =? last) || paire cells' x
  end.

(** Column [n] of a board, from top to bottom. *)
Definition colonne (p : plateau) (n : nat) : list Z := (λ l, l !!! n) <$> p.

(** Row [n] of a board. *)
Definition rangee (p : plateau) (n : nat) : list Z := p !!! n.

(** The answer of [_partie_terminee] in closed form. *)
Definition terminee (p : plateau) : bool :=
  bool_decide (cases_vides p = [])
  && negb (existsb (λ n, paire (colonne p n) 0) (seq 0 TAILLE))
  && negb (existsb (λ n, paire (rangee p n) 0) (seq 0 TAILLE)).

(** The move a direction code selects; a code that is none of the four
    selects no move at all. *)
Definition mouvement (direction : string) : plateau → plateau * Z :=
  if String.eqb direction "g" then gauche
  else if String.eqb direction "d" then droite
  else if String.eqb direction "h" then haut
  else if String.eqb direction "b" then bas
  else λ p, (p, 0).

Definition direction_legale (direction : string) : Prop :=
  direction ∈ ["g"; "d"; "h"; "b"].

(** No cell of the board is empty. *)
Definition plein (p : plateau) : Prop :=
  ∀ i j x, cellule p i j = Some x → x ≠ 0.

(** No cell equals its right-hand neighbour. *)
Definition sans_paire_horizontale (p : plateau) : Prop :=
  ∀ i j x y, cellule p i j = Some x → cellule p i (S j) = Some y → x ≠ y.

(** No cell equals the cell below it. *)
Definition sans_paire_verticale (p : plateau) : Prop :=
  ∀ i j x y, cellule p i j = Some x → cellule p (S i) j = Some y → x ≠ y.

(** ** Sample boards and lines *)

Definition plateau_bloque : plateau :=
  [[2; 4; 2; 4]; [4; 2; 4; 2]; [2; 4; 2; 4]; [4; 2; 4; 2]].

Definition plateau_fusion : plateau :=
  [[2; 2; 8; 16]; [8; 16; 32; 64]; [4; 8; 16; 32]; [8; 16; 32; 64]].

Definition plateau_tasse : plateau :=
  [[2; 4; 8; 16]; [4; 0; 0; 0]; [2; 4; 0; 0]; [0; 0; 0; 0]].

(** The board [plateau_fusion] after a move to the left and a spawn in the
    one cell the move has freed. *)
Definition plateau_fusion_suite : plateau :=
  [[4; 8; 16; 2]; [8; 16; 32; 64]; [4; 8; 16; 32]; [8; 16; 32; 64]].

(** The number of tiles of a line and of a board. *)
Definition nb_non_vides (l : list Z) : nat := length (_supprimer_zeros l).
Definition nb_tuiles (p : plateau) : nat := sum_list (nb_non_vides <$> p).

(** Two neighbours of a line are equal. *)
Fixpoint adjacents (l : list Z) : bool :=
  match l with
  | [] => false
  | x :: l' =>
      match l' with
      | [] => false
      | y :: _ => (x =? y) || adjacents l'
      end
  end.

(** Two neighbours of a line are equal and not empty. *)
Fixpoint paire_non_vide (l : list Z) : bool :=
  match l with
  | [] => false
  | x :: l' =>
      match l' with
      | [] => false
      | y :: _ => ((x =? y) && negb (x =? 0)) || paire_non_vide l'
      end
  end.

Definition ligne_2248 : list Z := [2; 2; 4; 8].

(** ** Notions used by the further properties *)

(** The sum of the cells of a board. *)
Definition total (p : plateau) : Z := somme (somme <$> p).

(** A move, in closed form, that keeps the sum of the cells of a well-formed
    board. *)
Definition conserve_total (m : plateau → plateau * Z) : Prop :=
  ∀ p, bien_forme p → total (m p).1 = total p.

(** A cell is empty or holds a power of two, 2 at least. *)
Definition tuile_valide (x : Z) : bool :=
  (x =? 0) || ((2 <=? x) && (x =? 2 ^ Z.log2 x)).

(** Every cell of the board satisfies [P]. *)
Definition partout (P : Z → Prop) (p : plateau) : Prop := Forall (Forall P) p.

(** A move, in closed form, that keeps a property of well-formed boards. *)
Definition preserve (Q : plateau → Prop) (m : plateau → plateau * Z) : Prop :=
  ∀ p, bien_forme p → Q p → Q (m p).1.

(** A row of [TAILLE] tiles no two neighbours of which are equal. *)
Definition bloquee (l : list Z) : Prop :=
  Forall (λ v, v ≠ 0) l ∧ adjacents l = false ∧ length l = TAILLE.

(** A board with a tile. *)
Definition a_tuile (p : plateau) : Prop := Exists (Exists (λ x, x ≠ 0)) p.

(** A row with an empty cell and a tile. *)
Definition mixte (l : list Z) : Prop := 0 ∈ l ∧ Exists (λ x, x ≠ 0) l.

Definition plateau_court : plateau :=
  [[2; 4; 8; 16]; [2; 4; 8]; [0; 0; 0; 0]; [0; 0; 0; 0]].

Definition plateau_large : plateau := [[1; 2; 3; 4; 5]; [6; 7; 8; 9; 10]].

(** No tile of a row stands to the right of an empty cell. *)
Definition tasse_a_gauche (q : plateau) : Prop :=
  ∀ n i j x, (i < j)%nat →
             cellule q n i = Some 0 → cellule q n j = Some x → x = 0.

(** The coordinates of the board, row by row and from left to right. *)
Definition coordonnees : list (nat * nat) :=
  mjoin ((λ i, (λ j, (i, j)) <$> seq 0 TAILLE) <$> seq 0 TAILLE).

(** A move, in closed form, that creates no tile and, on non-negative
    cells, earns points exactly when the number of tiles drops. *)
Definition compte_correct (m : plateau → plateau * Z) : Prop :=
  ∀ p, bien_forme p →
       (nb_tuiles (m p).1 ≤ nb_tuiles p)%nat
       ∧ (partout (λ x, 0 ≤ x) p →
          ((m p).2 = 0 ↔ nb_tuiles (m p).1 = nb_tuiles p)).

(** 1 for a tile, 0 for an empty cell. *)
Definition indicatrice (x : Z) : nat := if decide (x = 0) then 0%nat else 1%nat.

(** * Lemmas *)

Lemma bind_Ret {A B : Type} (a : A) (f : A → outcome B) : (Ret a ≫= f) = f a.
Proof. reflexivity. Qed.

(** ** Indexing inside the bounds *)

Section Indexing.
Context {A : Type}.
Implicit Types (l pre post : list A) (x : A).

Lemma getitem_lookup l (n : nat) x :
  l !! n = Some x → Py.getitem l (Z.of_nat n) = Ret x.
Proof.
  intros H. pose proof (lookup_lt_Some _ _ _ H) as Hl.
  unfold Py.getitem, Py.norm.
  destruct (Z.ltb_spec (Z.of_nat n) 0); [lia|].
  destruct (Z.leb_spec 0 (Z.of_nat n)); [|lia].
  destruct (Z.ltb_spec (Z.of_nat n) (Z.of_nat (length l))); [|lia].
  simpl. by rewrite Nat2Z.id, H.
Qed.

Lemma getitem_None l (n : nat) :
  l !! n = None → Py.getitem l (Z.of_nat n) = Raise IndexError.
Proof.
  intros H. apply lookup_ge_None in H.
  unfold Py.getitem, Py.norm.
  destruct (Z.ltb_spec (Z.of_nat n) 0); [lia|].
  destruct (Z.ltb_spec (Z.of_nat n) (Z.of_nat (length l))); [lia|].
  by rewrite andb_false_r.
Qed.

Lemma getitem_middle pre x post (i : Z) :
  i = Z.of_nat (length pre) → Py.getitem (pre ++ x :: post) i = Ret x.
Proof.
  intros ->. apply getitem_lookup. by rewrite list_lookup_middle.
Qed.

Lemma setitem_lookup l (n : nat) x :
  (n < length l)%nat → Py.setitem l (Z.of_nat n) x = Ret (<[n := x]> l).
Proof.
  intros Hl. unfold Py.setitem, Py.norm.
  destruct (Z.ltb_spec (Z.of_nat n) 0); [lia|].
  destruct (Z.leb_spec 0 (Z.of_nat n)); [|lia].
  destruct (Z.ltb_spec (Z.of_nat n) (Z.of_nat (length l))); [|lia].
  simpl. by rewrite Nat2Z.id.
Qed.

Lemma insert_middle pre post x (i : Z) :
  i = Z.of_nat (length pre) → Py.insert (pre ++ post) i x = pre ++ x :: post.
Proof.
  intros ->. unfold Py.insert, Py.norm.
  destruct (Z.ltb_spec (Z.of_nat (length pre)) 0); [lia|].
  rewrite length_app.
  replace (Z.to_nat _) with (length pre) by lia.
  by rewrite take_app_length, drop_app_length.
Qed.

Lemma pop_middle pre x post (i : Z) :
  i = Z.of_nat (length pre) →
  Py.pop (pre ++ x :: post) i = Ret (x, pre ++ post).
Proof.
  intros ->. unfold Py.pop, Py.norm.
  destruct (Z.ltb_spec (Z.of_nat (length pre)) 0); [lia|].
  destruct (Z.leb_spec 0 (Z.of_nat (length pre))); [|lia].
  rewrite length_app. simpl.
  destruct (Z.ltb_spec (Z.of_nat (length pre))
              (Z.of_nat (length pre + S (length post)))); [|lia].
  simpl. rewrite Nat2Z.id, list_lookup_middle by done.
  by rewrite delete_middle.
Qed.
End Indexing.

(** ** The merge loop *)

Section Fusion.
Implicit Types (l pre rest : list Z).

Lemma fusionner_boucle_S fuel l last points lenght v :
  fusionner_boucle (S fuel) l last points lenght v =
  if v <? lenght then
    x ← Py.getitem l v;
    if x =? last then
      a ← Py.getitem l (v - 1);
      b ← Py.getitem l (v - 1);
      '(_, l1) ← Py.pop (Py.insert l (v - 1) (b * 2)) v;
      '(_, l2) ← Py.pop l1 v;
      fusionner_boucle fuel l2 0 (points + a * 2) (lenght - 1) v
    else
      y ← Py.getitem l v;
      fusionner_boucle fuel l y points lenght (v + 1)
  else Ret (l, points).
Proof. reflexivity. Qed.

Lemma fusionner_boucle_fin fuel l last points lenght v :
  lenght ≤ v → fusionner_boucle fuel l last points lenght v = Ret (l, points).
Proof.
  intros H. destruct fuel; simpl; by rewrite (proj2 (Z.ltb_ge _ _)) by lia.
Qed.

(** The loop seen from its two kinds of states: [last] is either [0] (at
    the start and after a merge) or the cell just read. *)
Lemma fusionner_boucle_spec rest :
  Forall (λ v, v ≠ 0) rest →
  (∀ pre points fuel,
     (length rest ≤ fuel)%nat →
     fusionner_boucle fuel (pre ++ rest) 0 points
       (Z.of_nat (length pre + length rest)) (Z.of_nat (length pre))
     = Ret (pre ++ (fusion rest).1, points + (fusion rest).2))
  ∧
  (∀ pre a points fuel,
     (length rest ≤ fuel)%nat →
     fusionner_boucle fuel (pre ++ a :: rest) a points
       (Z.of_nat (length pre + S (length rest))) (Z.of_nat (length pre) + 1)
     = Ret (pre ++ (fusion (a :: rest)).1, points + (fusion (a :: rest)).2)).
Proof.
  induction rest as [|y rest IH]; intros Hnz.
  - split; intros; rewrite fusionner_boucle_fin by (simpl; lia);
      rewrite ?app_nil_r; simpl; f_equal; f_equal; lia.
  - apply Forall_cons in Hnz as [Hy Hnz].
    destruct (IH Hnz) as [IH0 IHa]. clear IH. split.
    + intros pre points [|fuel] Hfuel; simpl in Hfuel; [lia|].
      rewrite fusionner_boucle_S.
      rewrite (proj2 (Z.ltb_lt _ _)) by (simpl; lia).
      rewrite (getitem_middle pre y rest (Z.of_nat (length pre))) by done.
      simpl.
      destruct (Z.eqb_spec y 0); [done|].
      rewrite (IHa pre y points fuel) by lia. done.
    + intros pre a points [|fuel] Hfuel; simpl in Hfuel; [lia|].
      rewrite fusionner_boucle_S.
      rewrite (proj2 (Z.ltb_lt _ _)) by (simpl; lia).
      set (v := Z.of_nat (length pre) + 1).
      assert (Hv : v = Z.of_nat (length (pre ++ [a])))
        by (rewrite length_app; simpl; lia).
      assert (Hv2 : v = Z.of_nat (length (pre ++ [a * 2])))
        by (rewrite length_app; simpl; lia).
      replace (pre ++ a :: y :: rest) with ((pre ++ [a]) ++ y :: rest)
        by (by rewrite <- (assoc_L (++))).
      rewrite (getitem_middle (pre ++ [a]) y rest v Hv). simpl.
      destruct (Z.eqb_spec y a) as [->|Hne].
      * replace ((pre ++ [a]) ++ a :: rest) with (pre ++ a :: a :: rest)
          by (by rewrite <- (assoc_L (++))).
        rewrite (getitem_middle pre a (a :: rest) (v - 1)) by lia. simpl.
        replace (pre ++ a :: a :: rest) with (pre ++ (a :: a :: rest)) by done.
        rewrite (insert_middle pre (a :: a :: rest) (a * 2) (v - 1)) by lia.
        replace (pre ++ a * 2 :: a :: a :: rest)
          with ((pre ++ [a * 2]) ++ a :: (a :: rest))
          by (by rewrite <- (assoc_L (++))).
        rewrite (pop_middle (pre ++ [a * 2]) a (a :: rest) v Hv2). simpl.
        rewrite (pop_middle (pre ++ [a * 2]) a rest v Hv2). simpl.
        specialize (IH0 (pre ++ [a * 2]) (points + a * 2) fuel).
        rewrite <- Hv2 in IH0.
        replace (Z.of_nat (length pre + S (S (length rest))) - 1)
          with (Z.of_nat (length (pre ++ [a * 2]) + length rest))
          by (rewrite length_app; simpl; lia).
        rewrite IH0 by lia.
        rewrite Z.eqb_refl. simpl. rewrite <- (assoc_L (++)). simpl.
        f_equal. f_equal. lia.
      * specialize (IHa (pre ++ [a]) y points fuel).
        rewrite <- Hv in IHa.
        replace (Z.of_nat (length pre + S (S (length rest))))
          with (Z.of_nat (length (pre ++ [a]) + S (length rest)))
          by (rewrite length_app; simpl; lia).
        rewrite IHa by lia.
        destruct (Z.eqb_spec a y); [congruence|].
        by rewrite <- (assoc_L (++)).
Qed.

(** On a line without zeros, which is all [_deplacer_gauche] hands over,
    [_fusionner] returns, and returns the single left-to-right pass. *)
Lemma fusionner_sans_zero l :
  Forall (λ v, v ≠ 0) l → _fusionner l = Ret (fusion l).
Proof.
  intros Hnz. unfold _fusionner.
  destruct (fusionner_boucle_spec l Hnz) as [H0 _].
  pose proof (H0 [] 0 (length l) (le_n _)) as H.
  destruct (fusion l). exact H.
Qed.

(** Whatever the line, the fuel handed to the loop is enough: the loop
    ends, with a result or with an exception. *)
Lemma fusionner_boucle_fuel fuel : ∀ l last points lenght v,
  lenght - v ≤ Z.of_nat fuel →
  fusionner_boucle fuel l last points lenght v ≠ OutOfFuel.
Proof.
  assert (Hget : ∀ (l : list Z) i, Py.getitem l i ≠ OutOfFuel).
  { intros l i. unfold Py.getitem. repeat case_match; done. }
  assert (Hpop : ∀ (l : list Z) i, Py.pop l i ≠ OutOfFuel).
  { intros l i. unfold Py.pop. repeat case_match; done. }
  induction fuel as [|fuel IH]; intros l last points lenght v Hm.
  - rewrite fusionner_boucle_fin by lia. done.
  - rewrite fusionner_boucle_S.
    destruct (Z.ltb_spec v lenght); [|done].
    pose proof (Hget l v) as H1. pose proof (Hget l (v - 1)) as H2.
    destruct (Py.getitem l v) as [x| |]; simpl; [|done|done].
    destruct (x =? last); [|apply IH; lia].
    destruct (Py.getitem l (v - 1)) as [a| |]; simpl; [|done|done].
    pose proof (Hpop (Py.insert l (v - 1) (a * 2)) v) as H3.
    destruct (Py.pop _ v) as [[? l1]| |]; simpl; [|done|done].
    pose proof (Hpop l1 v) as H4.
    destruct (Py.pop l1 v) as [[? l2]| |]; simpl; [|done|done].
    apply IH. lia.
Qed.

Lemma fusionner_termine l : _fusionner l ≠ OutOfFuel.
Proof. apply fusionner_boucle_fuel. lia. Qed.
End Fusion.

(** ** One row *)

Section Ligne.
Implicit Types (l m : list Z).

Lemma fusion_egal x l :
  fusion (x :: x :: l) = (x * 2 :: (fusion l).1, x * 2 + (fusion l).2).
Proof. simpl. by rewrite Z.eqb_refl. Qed.

Lemma fusion_distinct x y l :
  x ≠ y → fusion (x :: y :: l) = (x :: (fusion (y :: l)).1, (fusion (y :: l)).2).
Proof.
  intros H. change (fusion (x :: y :: l)) with
    (if x =? y then (x * 2 :: (fusion l).1, x * 2 + (fusion l).2)
     else (x :: (fusion (y :: l)).1, (fusion (y :: l)).2)).
  by destruct (Z.eqb_spec x y).
Qed.

(** Induction along the cases of the pass. *)
Lemma fusion_induction (P : list Z → Prop) :
  P [] →
  (∀ x, P [x]) →
  (∀ x l, P l → P (x :: x :: l)) →
  (∀ x y l, x ≠ y → P (y :: l) → P (x :: y :: l)) →
  ∀ l, P l.
Proof.
  intros Hnil Hone Heq Hne l.
  induction l as [l IH] using (induction_ltof1 _ length). unfold ltof in IH.
  destruct l as [|x [|y l]]; [done..|].
  destruct (decide (x = y)) as [->|Hxy].
  - apply Heq, IH. simpl. lia.
  - apply Hne, IH; [done|simpl; lia].
Qed.

Lemma fusion_length l : (length (fusion l).1 ≤ length l)%nat.
Proof.
  induction l as [|x|x l IH|x y l Hxy IH] using fusion_induction;
    [done..| |].
  - rewrite fusion_egal. cbn [fst length]. lia.
  - rewrite fusion_distinct by done. cbn [fst length] in *. lia.
Qed.

(** A pass that keeps the length has merged nothing. *)
Lemma fusion_fixe l : length (fusion l).1 = length l → fusion l = (l, 0).
Proof.
  induction l as [|x|x l IH|x y l Hxy IH] using fusion_induction;
    [done..| |].
  - rewrite fusion_egal. cbn [fst length]. pose proof (fusion_length l). lia.
  - rewrite fusion_distinct by done. cbn [fst length]. intros Hl.
    rewrite IH by (cbn [length]; lia). done.
Qed.

Lemma fusion_sans_zero l :
  Forall (λ v, v ≠ 0) l → Forall (λ v, v ≠ 0) (fusion l).1.
Proof.
  induction l as [|x|x l IH|x y l Hxy IH] using fusion_induction;
    [done..| |]; intros Hnz; apply Forall_cons in Hnz as [Hx Hnz].
  - rewrite fusion_egal. cbn [fst]. apply Forall_cons in Hnz as [_ Hnz].
    apply Forall_cons. split; [lia|auto].
  - rewrite fusion_distinct by done. cbn [fst]. apply Forall_cons. auto.
Qed.

Lemma supprimer_zeros_sans_zero l : Forall (λ v, v ≠ 0) (_supprimer_zeros l).
Proof. apply Forall_forall. intros x Hx. by apply list_elem_of_filter in Hx as [? _]. Qed.

Lemma supprimer_zeros_id l : Forall (λ v, v ≠ 0) l → _supprimer_zeros l = l.
Proof.
  unfold _supprimer_zeros. induction 1 as [|x l Hx _ IH]; [done|].
  rewrite filter_cons_True by done. by rewrite IH.
Qed.

Lemma completer_boucle_spec fuel : ∀ l,
  (TAILLE - length l ≤ fuel)%nat → completer_boucle fuel l = Ret (complete l).
Proof.
  unfold complete.
  induction fuel as [|fuel IH]; intros l Hl; simpl.
  - destruct (Nat.ltb_spec (length l) TAILLE); [lia|].
    replace (TAILLE - length l)%nat with 0%nat by lia. simpl.
    by rewrite app_nil_r.
  - destruct (Nat.ltb_spec (length l) TAILLE).
    + rewrite IH by (rewrite length_app; simpl; lia).
      rewrite length_app. simpl.
      replace (TAILLE - length l)%nat with (S (TAILLE - (length l + 1))) by lia.
      simpl. by rewrite <- (assoc_L (++)).
    + replace (TAILLE - length l)%nat with 0%nat by lia. simpl.
      by rewrite app_nil_r.
Qed.

(** [_completer_zeros] returns, whatever the line. *)
Lemma completer_zeros_spec l : _completer_zeros l = Ret (complete l).
Proof. apply completer_boucle_spec. lia. Qed.

(** The loop body of [_deplacer_gauche] returns, whatever the row. *)
Lemma deplacer_ligne_spec l : deplacer_ligne l = Ret (deplace l).
Proof.
  unfold deplacer_ligne, deplace.
  rewrite fusionner_sans_zero by apply supprimer_zeros_sans_zero.
  simpl. destruct (fusion _) as [m p]. simpl.
  by rewrite completer_zeros_spec.
Qed.

Lemma complete_length m : (length m ≤ TAILLE)%nat → length (complete m) = TAILLE.
Proof. intros H. unfold complete. rewrite length_app, length_replicate. lia. Qed.

Lemma deplace_length l : (length l ≤ TAILLE)%nat → length (deplace l).1 = TAILLE.
Proof.
  intros H. apply complete_length.
  pose proof (fusion_length (_supprimer_zeros l)).
  pose proof (length_filter (λ v, v ≠ 0) l). unfold _supprimer_zeros in *. lia.
Qed.

Lemma supprimer_zeros_complete m :
  Forall (λ v, v ≠ 0) m → _supprimer_zeros (complete m) = m.
Proof.
  intros H. unfold _supprimer_zeros, complete. rewrite filter_app.
  fold (_supprimer_zeros m). rewrite supprimer_zeros_id by done.
  generalize (TAILLE - length m)%nat. intros n.
  induction n as [|n IH]; simpl; [by rewrite app_nil_r|].
  by rewrite filter_cons_False by (intros ?; done).
Qed.

(** A row the move leaves as it was has earned nothing. *)
Lemma deplace_fixe_points l : (deplace l).1 = l → (deplace l).2 = 0.
Proof.
  unfold deplace. simpl. intros H.
  pose proof (fusion_sans_zero _ (supprimer_zeros_sans_zero l)) as Hnz.
  apply (f_equal _supprimer_zeros) in H.
  rewrite supprimer_zeros_complete in H by done.
  rewrite fusion_fixe; [done|]. by rewrite H at 1.
Qed.

(** A row of [TAILLE] cells that the move changes has an empty cell
    afterwards. *)
Lemma deplace_change_vide l :
  length l = TAILLE → (deplace l).1 ≠ l → 0 ∈ (deplace l).1.
Proof.
  unfold deplace. simpl. intros Hl Hne.
  pose proof (fusion_length (_supprimer_zeros l)) as H1.
  pose proof (length_filter (λ v, v ≠ 0) l) as H2.
  fold (_supprimer_zeros l) in H2.
  destruct (decide (length (fusion (_supprimer_zeros l)).1 < TAILLE)%nat) as [Hlt|Hge].
  - unfold complete. apply elem_of_app. right.
    destruct (TAILLE - _)%nat eqn:E; [lia|]. simpl. apply list_elem_of_here.
  - exfalso. apply Hne.
    assert (Hs : _supprimer_zeros l = l).
    { apply supprimer_zeros_id. apply Forall_forall. intros x Hx Hx0.
      pose proof (length_filter_lt (λ v, v ≠ 0) l x Hx) as H3.
      unfold _supprimer_zeros in *. lia. }
    rewrite Hs in *. rewrite fusion_fixe by lia. simpl.
    unfold complete. replace (TAILLE - length l)%nat with 0%nat by lia.
    simpl. by rewrite app_nil_r.
Qed.
End Ligne.

(** ** Loops that collect *)

Section Boucles.
Context {A B : Type}.

Lemma for_loop_append (f : A → outcome B) (l : list A) : ∀ acc,
  for_loop (λ acc x, y ← f x; Ret (acc ++ [y])) l acc
  = ys ← for_each f l; Ret (acc ++ ys).
Proof.
  induction l as [|x l IH]; intros acc; simpl.
  - by rewrite app_nil_r.
  - destruct (f x) as [y| |]; simpl; [|done..].
    rewrite IH. destruct (for_each f l); simpl; [|done..].
    by rewrite <- (assoc_L (++)).
Qed.

Lemma for_each_ret (f : A → outcome B) (g : A → B) (l : list A) :
  Forall (λ x, f x = Ret (g x)) l → for_each f l = Ret (g <$> l).
Proof.
  induction 1 as [|x l Hx _ IH]; simpl; [done|]. by rewrite Hx, IH.
Qed.
End Boucles.

(** ** The four moves in closed form *)

Section Mouvements.
Implicit Types (p : plateau).

Lemma deplacer_gauche_boucle p : ∀ acc pts,
  for_loop
    (λ '(nouveau_plateau, nouveaux_points) l,
       '(l_finale, points) ← deplacer_ligne l;
       Ret (nouveau_plateau ++ [l_finale], nouveaux_points + points))
    p (acc, pts)
  = Ret (acc ++ (gauche p).1, pts + (gauche p).2).
Proof.
  induction p as [|l p IH]; intros acc pts; simpl.
  - rewrite app_nil_r. f_equal. f_equal. unfold somme. simpl. lia.
  - rewrite deplacer_ligne_spec. simpl. rewrite IH.
    unfold gauche, somme. simpl. destruct (deplace l) as [m k]. simpl.
    rewrite <- (assoc_L (++)). simpl. f_equal. f_equal.
    symmetry. apply Z.add_assoc.
Qed.

(** [_deplacer_gauche] returns on every board. *)
Lemma deplacer_gauche_spec p : _deplacer_gauche p = Ret (gauche p).
Proof.
  unfold _deplacer_gauche. rewrite deplacer_gauche_boucle.
  by destruct (gauche p).
Qed.

Lemma inverser_lignes_spec p : _inverser_lignes p = Spec.reverse_rows p.
Proof.
  unfold _inverser_lignes, Spec.reverse_rows.
  enough (H : ∀ acc, fold_left (λ np l, np ++ [reverse l]) p acc
                     = acc ++ (reverse <$> p)) by apply H.
  induction p as [|l p IH]; intros acc; simpl.
  - by rewrite app_nil_r.
  - rewrite IH. by rewrite <- (assoc_L (++)).
Qed.

(** [_deplacer_droite] returns on every board. *)
Lemma deplacer_droite_spec p : _deplacer_droite p = Ret (droite p).
Proof.
  unfold _deplacer_droite. rewrite inverser_lignes_spec, deplacer_gauche_spec.
  unfold droite, conjugue. destruct (gauche (Spec.reverse_rows p)) as [g k]. simpl.
  by rewrite inverser_lignes_spec.
Qed.

(** [_transposer] returns as soon as every row has [TAILLE] cells. *)
Lemma transposer_spec p :
  Forall (λ l, (TAILLE ≤ length l)%nat) p → _transposer p = Ret (Spec.transpose p).
Proof.
  intros Hp. unfold _transposer, Spec.transpose, Py.range.
  rewrite (for_loop_append
             (λ n, for_loop (λ nl l, x ← Py.getitem l (Z.of_nat n);
                                     Ret (nl ++ [x])) p [])).
  rewrite (for_each_ret _ (λ n, (λ l, l !!! n) <$> p)); [done|].
  apply Forall_forall. intros n Hn. apply elem_of_seq in Hn.
  rewrite (for_loop_append (λ l, Py.getitem l (Z.of_nat n))).
  rewrite (for_each_ret _ (λ l, l !!! n)); [done|].
  eapply Forall_impl; [exact Hp|]. intros l Hl. simpl in Hl.
  apply getitem_lookup. apply list_lookup_lookup_total_lt. lia.
Qed.
End Mouvements.

(** ** Boards of [TAILLE] by [TAILLE] cells *)

Section Plateaux.
Implicit Types (p : plateau).

(** A well-formed board is its sixteen cells. *)
Lemma bien_forme_inv p :
  bien_forme p →
  ∃ a0 a1 a2 a3 b0 b1 b2 b3 c0 c1 c2 c3 d0 d1 d2 d3,
    p = [[a0; a1; a2; a3]; [b0; b1; b2; b3];
         [c0; c1; c2; c3]; [d0; d1; d2; d3]].
Proof.
  unfold bien_forme, TAILLE. intros [Hl Hr].
  destruct p as [|la [|lb [|lc [|ld [|]]]]]; try discriminate Hl.
  repeat match goal with
         | H : Forall _ (_ :: _) |- _ => apply Forall_cons in H as [? H]
         end.
  simpl in *.
  repeat match goal with
         | H : length ?l = 4%nat |- _ =>
             destruct l as [|? [|? [|? [|? [|]]]]]; try discriminate H; clear H
         end.
  by repeat eexists.
Qed.

Lemma bien_forme_longueurs p :
  bien_forme p → Forall (λ l, (TAILLE ≤ length l)%nat) p.
Proof.
  intros [_ H]. eapply Forall_impl; [exact H|]. simpl. intros; lia.
Qed.

Lemma transpose_involutive p : bien_forme p → Spec.transpose (Spec.transpose p) = p.
Proof.
  intros (a0&a1&a2&a3&b0&b1&b2&b3&c0&c1&c2&c3&d0&d1&d2&d3&->)%bien_forme_inv.
  reflexivity.
Qed.

Lemma transpose_bien_forme p : bien_forme p → bien_forme (Spec.transpose p).
Proof.
  intros (a0&a1&a2&a3&b0&b1&b2&b3&c0&c1&c2&c3&d0&d1&d2&d3&->)%bien_forme_inv.
  split; [done|]. repeat constructor.
Qed.

Lemma transpose_vide p : bien_forme p → a_vide p → a_vide (Spec.transpose p).
Proof.
  intros (a0&a1&a2&a3&b0&b1&b2&b3&c0&c1&c2&c3&d0&d1&d2&d3&->)%bien_forme_inv.
  unfold a_vide, Spec.transpose. cbn.
  rewrite !Exists_cons, !Exists_nil, !elem_of_cons, !elem_of_nil. tauto.
Qed.

Lemma inverse_involutive p : Spec.reverse_rows (Spec.reverse_rows p) = p.
Proof.
  unfold Spec.reverse_rows. rewrite <- list_fmap_compose.
  rewrite <- (list_fmap_id p) at 2. apply list_fmap_ext.
  intros _ l _. simpl. apply reverse_involutive.
Qed.

Lemma inverse_bien_forme p : bien_forme p → bien_forme (Spec.reverse_rows p).
Proof.
  intros [Hl Hr]. split; unfold Spec.reverse_rows.
  - by rewrite length_fmap.
  - apply Forall_fmap. eapply Forall_impl; [exact Hr|].
    intros l Hlen. simpl. by rewrite length_reverse.
Qed.

Lemma inverse_vide p : a_vide p → a_vide (Spec.reverse_rows p).
Proof.
  unfold a_vide, Spec.reverse_rows. rewrite !Exists_exists.
  intros (l & Hl & H0). exists (reverse l). split.
  - by apply list_elem_of_fmap_2.
  - by apply elem_of_reverse.
Qed.
End Plateaux.

(** ** What every move keeps *)

Section Conjugaison.
Variables (t : plateau → plateau) (m : plateau → plateau * Z).
Hypothesis t_involutive : ∀ p, bien_forme p → t (t p) = p.
Hypothesis t_bien_forme : ∀ p, bien_forme p → bien_forme (t p).
Hypothesis t_vide : ∀ p, bien_forme p → a_vide p → a_vide (t p).
Hypothesis m_correct : mouvement_correct m.

Lemma conjugue_correct : mouvement_correct (conjugue t m).
Proof.
  intros p Hp. unfold conjugue. simpl.
  destruct (m_correct (t p) (t_bien_forme p Hp)) as (Hbf & Hfix & Hch).
  split; [auto|]. split.
  - intros Heq. apply Hfix.
    rewrite <- (t_involutive _ Hbf), Heq. done.
  - intros Hne. apply t_vide; [done|]. apply Hch.
    intros Heq. apply Hne. rewrite Heq. auto.
Qed.
End Conjugaison.

Section Corrects.
Implicit Types (p : plateau).

Lemma gauche_correct : mouvement_correct gauche.
Proof.
  intros p [Hl Hr]. unfold gauche. cbn [fst snd]. split; [|split].
  - split; [by rewrite length_fmap|].
    apply Forall_fmap. eapply Forall_impl; [exact Hr|].
    intros l Hlen. cbn in *. apply deplace_length. by rewrite Hlen.
  - clear Hl Hr. induction p as [|l p IH]; [done|].
    rewrite !fmap_cons. intros [= H1 H2]. unfold somme in *. cbn [foldr].
    rewrite (deplace_fixe_points l H1). rewrite IH by done. done.
  - clear Hl. induction Hr as [|l p Hlen Hr IH]; [done|].
    rewrite fmap_cons. intros Hne.
    destruct (decide ((deplace l).1 = l)) as [Heq|Hch].
    + apply Exists_cons_tl. apply IH. intros H. apply Hne. by rewrite Heq, H.
    + apply Exists_cons_hd. by apply deplace_change_vide.
Qed.

Lemma droite_correct : mouvement_correct droite.
Proof.
  apply conjugue_correct; auto using inverse_involutive, inverse_bien_forme,
    inverse_vide, gauche_correct.
Qed.

Lemma haut_correct : mouvement_correct haut.
Proof.
  apply conjugue_correct; auto using transpose_involutive,
    transpose_bien_forme, transpose_vide, gauche_correct.
Qed.

Lemma bas_correct : mouvement_correct bas.
Proof.
  apply conjugue_correct; auto using transpose_involutive,
    transpose_bien_forme, transpose_vide, droite_correct.
Qed.

(** [_deplacer_haut] returns on a well-formed board. *)
Lemma deplacer_haut_spec p : bien_forme p → _deplacer_haut p = Ret (haut p).
Proof.
  intros Hp. unfold _deplacer_haut, haut, conjugue.
  rewrite transposer_spec, bind_Ret by by apply bien_forme_longueurs.
  rewrite deplacer_gauche_spec, bind_Ret.
  pose proof (gauche_correct _ (transpose_bien_forme p Hp)) as (Hbf & _).
  destruct (gauche (Spec.transpose p)) as [g k]. cbn [fst snd] in *.
  by rewrite transposer_spec, bind_Ret by by apply bien_forme_longueurs.
Qed.

(** [_deplacer_bas] returns on a well-formed board. *)
Lemma deplacer_bas_spec p : bien_forme p → _deplacer_bas p = Ret (bas p).
Proof.
  intros Hp. unfold _deplacer_bas, bas, conjugue.
  rewrite transposer_spec, bind_Ret by by apply bien_forme_longueurs.
  rewrite deplacer_droite_spec, bind_Ret.
  pose proof (droite_correct _ (transpose_bien_forme p Hp)) as (Hbf & _).
  destruct (droite (Spec.transpose p)) as [g k]. cbn [fst snd] in *.
  by rewrite transposer_spec, bind_Ret by by apply bien_forme_longueurs.
Qed.
End Corrects.

(** ** Empty cells and the spawn *)

Section Vides.
Implicit Types (p : plateau).

Lemma case_cellule p i j x : cellule p i j = Some x → case_ p i j = Ret x.
Proof.
  unfold cellule, case_. intros H.
  destruct (p !! i) as [l|] eqn:Hl; [|done]. simpl in H.
  rewrite (getitem_lookup p i l Hl), bind_Ret. by apply getitem_lookup.
Qed.

Lemma bien_forme_cellule p i j :
  bien_forme p → (i < TAILLE)%nat → (j < TAILLE)%nat →
  is_Some (cellule p i j).
Proof.
  intros [Hl Hr] Hi Hj. unfold cellule.
  destruct (lookup_lt_is_Some_2 p i) as [l Hpl]; [lia|].
  rewrite Hpl. simpl. apply lookup_lt_is_Some_2.
  rewrite Forall_forall in Hr. rewrite (Hr l); [done|].
  by eapply list_elem_of_lookup_2.
Qed.

Lemma cases_vides_ligne_boucle p i js : ∀ acc,
  Forall (λ j, is_Some (cellule p i j)) js →
  for_loop (λ current j,
              x ← case_ p i j;
              Ret (if x =? 0 then current ++ [(i, j)] else current))
           js acc
  = Ret (acc ++ ((λ j, (i, j)) <$> filter (λ j, cellule p i j = Some 0) js)).
Proof.
  induction js as [|j js IH]; intros acc Hjs.
  - simpl. by rewrite app_nil_r.
  - apply Forall_cons in Hjs as [[x Hx] Hjs].
    cbn [for_loop]. rewrite (case_cellule _ _ _ _ Hx), !bind_Ret.
    rewrite IH by done.
    destruct (Z.eqb_spec x 0) as [->|Hne].
    + rewrite filter_cons_True by done. rewrite fmap_cons.
      by rewrite <- (assoc_L (++)).
    + rewrite filter_cons_False; [done|]. rewrite Hx. congruence.
Qed.

Lemma get_cases_vides_boucle p is_ : ∀ acc,
  Forall (λ i, Forall (λ j, is_Some (cellule p i j)) (seq 0 TAILLE)) is_ →
  for_loop
    (λ result i,
       current ←
         for_loop (λ current j,
                     x ← case_ p i j;
                     Ret (if x =? 0 then current ++ [(i, j)] else current))
                  (Py.range TAILLE) [];
       Ret (result ++ current))
    is_ acc
  = Ret (acc ++ mjoin (vides_ligne p <$> is_)).
Proof.
  induction is_ as [|i is_ IH]; intros acc His.
  - simpl. by rewrite app_nil_r.
  - apply Forall_cons in His as [Hi His].
    cbn [for_loop]. unfold Py.range at 1.
    rewrite cases_vides_ligne_boucle, !bind_Ret by done.
    rewrite IH by done. rewrite fmap_cons. cbn [mjoin list_join].
    by rewrite <- (assoc_L (++)).
Qed.

(** [_get_cases_vides] returns on a well-formed board. *)
Lemma get_cases_vides_spec p :
  bien_forme p → _get_cases_vides p = Ret (cases_vides p).
Proof.
  intros Hp. unfold _get_cases_vides, Py.range.
  apply (get_cases_vides_boucle p (seq 0 TAILLE) []).
  apply Forall_forall. intros i Hi. apply Forall_forall. intros j Hj.
  apply elem_of_seq in Hi, Hj. apply bien_forme_cellule; [done|lia..].
Qed.

Lemma elem_of_cases_vides p i j :
  (i, j) ∈ cases_vides p
  ↔ (i < TAILLE)%nat ∧ (j < TAILLE)%nat ∧ cellule p i j = Some 0.
Proof.
  unfold cases_vides, vides_ligne. rewrite list_elem_of_join. split.
  - intros (l & Hin & Hl). apply list_elem_of_fmap in Hl as (i' & -> & Hi').
    apply list_elem_of_fmap in Hin as (j' & [= -> ->] & Hj').
    apply list_elem_of_filter in Hj' as [H0 Hj'].
    apply elem_of_seq in Hi', Hj'. split; [lia|]. split; [lia|done].
  - intros (Hi & Hj & H0).
    exists ((λ j, (i, j)) <$> filter (λ j, cellule p i j = Some 0) (seq 0 TAILLE)).
    split.
    + apply list_elem_of_fmap. exists j. split; [done|].
      apply list_elem_of_filter. split; [done|]. apply elem_of_seq. lia.
    + apply list_elem_of_fmap. exists i. split; [done|]. apply elem_of_seq. lia.
Qed.

Lemma a_vide_cellule p :
  bien_forme p →
  a_vide p ↔ ∃ i j, (i < TAILLE)%nat ∧ (j < TAILLE)%nat ∧ cellule p i j = Some 0.
Proof.
  intros [Hl Hr]. unfold a_vide, cellule. rewrite Exists_exists. split.
  - intros (l & Hin & H0).
    apply list_elem_of_lookup in Hin as [i Hi], H0 as [j Hj].
    exists i, j. split; [|split].
    + apply lookup_lt_Some in Hi. lia.
    + apply lookup_lt_Some in Hj. rewrite Forall_forall in Hr.
      rewrite (Hr l) in Hj; [done|]. by eapply list_elem_of_lookup_2.
    + by rewrite Hi.
  - intros (i & j & _ & _ & H).
    destruct (p !! i) as [l|] eqn:Hi; [|done]. simpl in H.
    exists l. split; by eapply list_elem_of_lookup_2.
Qed.

Lemma cases_vides_nil p : bien_forme p → cases_vides p = [] ↔ ¬ a_vide p.
Proof.
  intros Hp. rewrite a_vide_cellule by done. split.
  - intros Hnil (i & j & Hij). apply elem_of_cases_vides in Hij.
    rewrite Hnil in Hij. by apply elem_of_nil in Hij.
  - intros Hno. destruct (cases_vides p) as [|[i j] cs] eqn:E; [done|].
    exfalso. apply Hno. exists i, j. apply elem_of_cases_vides.
    rewrite E. apply list_elem_of_here.
Qed.

(** [int(random.random())] is always [0]. *)
Lemma int_tirage r : tirage r → Py.int r = 0.
Proof.
  intros [H0 H1]. unfold Py.int, Qle, Qlt in *. simpl in *.
  apply Z.quot_small. lia.
Qed.

Lemma choice_elem_of {A : Type} (l : list A) (k : nat) :
  l ≠ [] → ∃ x, x ∈ l ∧ Py.choice l k = Ret x.
Proof.
  intros Hl. unfold Py.choice.
  destruct (lookup_lt_is_Some_2 l (k `mod` length l)) as [x Hx].
  { apply Nat.mod_upper_bound. by destruct l. }
  rewrite Hx. exists x. split; [|done]. by eapply list_elem_of_lookup_2.
Qed.

(** On a full board the spawn returns its argument. *)
Lemma ajouter_tuile_plein p k r :
  bien_forme p → ¬ a_vide p → _ajouter_tuile p k r = Ret p.
Proof.
  intros Hp Hv. unfold _ajouter_tuile.
  rewrite get_cases_vides_spec, bind_Ret by done.
  apply (cases_vides_nil p Hp) in Hv. rewrite Hv. done.
Qed.

(** On a board with an empty cell the spawn overwrites one empty cell. *)
Lemma ajouter_tuile_vide p k r :
  bien_forme p → a_vide p →
  ∃ i j l, (i < TAILLE)%nat ∧ (j < TAILLE)%nat ∧
           p !! i = Some l ∧ l !! j = Some 0 ∧
           _ajouter_tuile p k r
           = Ret (<[i := <[j := 2 + 2 * Py.int r]> l]> p).
Proof.
  intros Hp Hv. unfold _ajouter_tuile.
  rewrite get_cases_vides_spec, bind_Ret by done.
  assert (Hne : cases_vides p ≠ []).
  { intros Hnil. by apply (cases_vides_nil p Hp) in Hnil. }
  rewrite bool_decide_eq_false_2 by done.
  rewrite bind_Ret.
  destruct (choice_elem_of (cases_vides p) k Hne) as ([i j] & Hin & ->).
  apply elem_of_cases_vides in Hin as (Hi & Hj & Hc).
  unfold cellule in Hc. destruct (p !! i) as [l|] eqn:Hl; [|done].
  simpl in Hc. exists i, j, l. repeat (split; [done|]).
  rewrite bind_Ret. cbn beta iota.
  rewrite (getitem_lookup p i l Hl), bind_Ret.
  rewrite setitem_lookup, bind_Ret by (by eapply lookup_lt_Some).
  rewrite setitem_lookup by (by eapply lookup_lt_Some). done.
Qed.
End Vides.

(** ** The terminal test *)

Section Terminee.
Implicit Types (p : plateau) (cells : list Z).

Lemma paire_colonne_spec p n vs : ∀ cells last,
  Forall2 (λ v x, cellule p v n = Some x) vs cells →
  paire_colonne p n vs last = Ret (paire cells last).
Proof.
  induction vs as [|v vs IH]; intros cells last H;
    inversion H as [|? x ? cells' Hx Hrest]; subst; [done|].
  cbn [paire_colonne paire]. rewrite (case_cellule _ _ _ _ Hx), !bind_Ret.
  destruct (x =? last); [done|]. by rewrite (IH cells' x).
Qed.

Lemma paire_ligne_spec p n vs : ∀ cells last,
  Forall2 (λ v x, cellule p n v = Some x) vs cells →
  paire_ligne p n vs last = Ret (paire cells last).
Proof.
  induction vs as [|v vs IH]; intros cells last H;
    inversion H as [|? x ? cells' Hx Hrest]; subst; [done|].
  cbn [paire_ligne paire]. rewrite (case_cellule _ _ _ _ Hx), !bind_Ret.
  destruct (x =? last); [done|]. by rewrite (IH cells' x).
Qed.

Lemma balayage_spec (scan : nat → outcome bool) (g : nat → bool) ns :
  Forall (λ n, scan n = Ret (g n)) ns → balayage scan ns = Ret (existsb g ns).
Proof.
  induction 1 as [|n ns Hn _ IH]; [done|].
  cbn [balayage existsb]. rewrite Hn, bind_Ret. by destruct (g n).
Qed.

Lemma cellule_colonne p i n x :
  cellule p i n = Some x → colonne p n !! i = Some x.
Proof.
  unfold cellule, colonne. intros H. rewrite list_lookup_fmap.
  destruct (p !! i) as [l|]; [|done]. simpl in *.
  by rewrite (list_lookup_total_correct _ _ _ H).
Qed.

Lemma cellule_rangee p n j x :
  cellule p n j = Some x → rangee p n !! j = Some x.
Proof.
  unfold cellule, rangee. intros H.
  destruct (p !! n) as [l|] eqn:Hl; [|done]. simpl in *.
  by rewrite (list_lookup_total_correct _ _ _ Hl).
Qed.

Lemma colonne_cellule p i n x :
  bien_forme p → (n < TAILLE)%nat →
  colonne p n !! i = Some x → cellule p i n = Some x.
Proof.
  intros Hp Hn H. pose proof (lookup_lt_Some _ _ _ H) as Hi.
  unfold colonne in Hi. rewrite length_fmap in Hi.
  destruct (bien_forme_cellule p i n Hp) as [y Hy]; [destruct Hp; lia|done|].
  apply cellule_colonne in Hy as Hy'. congruence.
Qed.

Lemma rangee_cellule p n j x :
  bien_forme p → (n < TAILLE)%nat →
  rangee p n !! j = Some x → cellule p n j = Some x.
Proof.
  intros [Hl Hr] Hn H. unfold cellule, rangee in *.
  destruct (lookup_lt_is_Some_2 p n) as [l Hpl]; [lia|].
  rewrite Hpl. simpl. by rewrite (list_lookup_total_correct _ _ _ Hpl) in H.
Qed.

Lemma Forall2_seq_lookup {A : Type} (P : nat → A → Prop) (l : list A) n :
  length l = n → (∀ i x, l !! i = Some x → P i x) → Forall2 P (seq 0 n) l.
Proof.
  intros Hlen H. apply Forall2_same_length_lookup. split.
  - by rewrite length_seq.
  - intros i v x Hv Hx. apply lookup_seq in Hv as [-> _]. by apply H.
Qed.

(** [_partie_terminee] returns on a well-formed board. *)
Lemma partie_terminee_spec p :
  bien_forme p → _partie_terminee p = Ret (terminee p).
Proof.
  intros Hp. unfold _partie_terminee, terminee, Py.range.
  rewrite get_cases_vides_spec, bind_Ret by done.
  destruct (bool_decide (cases_vides p = [])); [|done]. cbn [negb andb].
  rewrite (balayage_spec (λ n, paire_colonne p n (seq 0 TAILLE) 0)
             (λ n, paire (colonne p n) 0)).
  2:{ apply Forall_forall. intros n Hn. apply elem_of_seq in Hn.
      apply paire_colonne_spec, Forall2_seq_lookup.
      - unfold colonne. rewrite length_fmap. by destruct Hp.
      - intros i x. apply colonne_cellule; [done|lia]. }
  rewrite bind_Ret. destruct (existsb _ _); [done|]. cbn [negb andb].
  rewrite (balayage_spec (λ n, paire_ligne p n (seq 0 TAILLE) 0)
             (λ n, paire (rangee p n) 0)).
  2:{ apply Forall_forall. intros n Hn. apply elem_of_seq in Hn.
      apply paire_ligne_spec, Forall2_seq_lookup.
      - destruct Hp as [Hl Hr]. unfold rangee.
        destruct (lookup_lt_is_Some_2 p n) as [l Hpl]; [lia|].
        rewrite (list_lookup_total_correct _ _ _ Hpl).
        rewrite Forall_forall in Hr. apply Hr.
        by eapply list_elem_of_lookup_2.
      - intros i x. apply rangee_cellule; [done|lia]. }
  rewrite bind_Ret. by destruct (existsb _ _).
Qed.

(** A board with an empty cell is not terminal. *)
Lemma partie_terminee_vide p :
  bien_forme p → a_vide p → _partie_terminee p = Ret false.
Proof.
  intros Hp Hv. rewrite partie_terminee_spec by done. unfold terminee.
  rewrite bool_decide_eq_false_2; [done|].
  intros Hnil. by apply (cases_vides_nil p Hp) in Hnil.
Qed.

Lemma paire_false cells : ∀ last,
  paire cells last = false
  ↔ (∀ x, head cells = Some x → x ≠ last)
    ∧ (∀ i x y, cells !! i = Some x → cells !! S i = Some y → x ≠ y).
Proof.
  induction cells as [|c cells IH]; intros last; cbn [paire].
  - split; [|done]. intros _. split; intros; simplify_eq.
  - rewrite orb_false_iff, IH, Z.eqb_neq. split.
    + intros (Hc & Hhd & Hadj). split.
      * intros x [= <-]. done.
      * intros [|i] x y Hx Hy; simpl in *.
        -- simplify_eq. intros ->. eapply Hhd; [|done]. by destruct cells.
        -- eauto.
    + intros (Hhd & Hadj). split; [by apply Hhd|]. split.
      * intros x Hx Heq. subst. destruct cells as [|d cells]; [done|].
        simpl in Hx. simplify_eq. by eapply (Hadj 0%nat c c).
      * intros i x y Hx Hy. by apply (Hadj (S i)).
Qed.

Lemma existsb_false {A : Type} (g : A → bool) (l : list A) :
  existsb g l = false ↔ ∀ x, x ∈ l → g x = false.
Proof.
  induction l as [|a l IH]; cbn [existsb].
  - split; [|done]. intros _ x Hx. by apply elem_of_nil in Hx.
  - rewrite orb_false_iff, IH. split.
    + intros [Ha Hl] x [->|Hx]%elem_of_cons; auto.
    + intros H. split; [apply H, list_elem_of_here|].
      intros x Hx. by apply H, list_elem_of_further.
Qed.
End Terminee.

(** ** One turn *)

Section Coup.
Implicit Types (p : plateau) (d : string).

Lemma mouvement_illegal d p : ¬ direction_legale d → mouvement d p = (p, 0).
Proof.
  unfold direction_legale, mouvement. rewrite !elem_of_cons, elem_of_nil.
  intros H.
  repeat match goal with
         | |- context [String.eqb d ?s] =>
             destruct (String.eqb_spec d s); [tauto|]
         end.
  done.
Qed.

Lemma mouvement_est_correct d : mouvement_correct (mouvement d).
Proof.
  unfold mouvement.
  repeat match goal with
         | |- context [String.eqb d ?s] =>
             destruct (String.eqb d s);
             [auto using gauche_correct, droite_correct, haut_correct,
                bas_correct|]
         end.
  intros p Hp. simpl. split; [done|]. split; done.
Qed.

(** The four tests of [jouer_coup] return on a well-formed board. *)
Lemma coup_spec p d : bien_forme p → coup p d = Ret (mouvement d p).
Proof.
  intros Hp. unfold coup, mouvement.
  destruct (String.eqb_spec d "g") as [->|Hg].
  { cbn [String.eqb Ascii.eqb Bool.eqb]. rewrite deplacer_gauche_spec.
    by destruct (gauche p). }
  rewrite bind_Ret.
  destruct (String.eqb_spec d "d") as [->|Hd].
  { cbn [String.eqb Ascii.eqb Bool.eqb]. rewrite deplacer_droite_spec.
    by destruct (droite p). }
  rewrite bind_Ret.
  destruct (String.eqb_spec d "h") as [->|Hh].
  { cbn [String.eqb Ascii.eqb Bool.eqb]. rewrite deplacer_haut_spec by done.
    by destruct (haut p). }
  rewrite bind_Ret.
  destruct (String.eqb_spec d "b") as [->|Hb].
  { rewrite deplacer_bas_spec by done. by destruct (bas p). }
  done.
Qed.

(** [jouer_coup] on a well-formed board, in closed form. *)
Lemma jouer_coup_spec p d k r :
  bien_forme p →
  jouer_coup p d k r
  = if bool_decide (p = (mouvement d p).1) then
      Ret ((mouvement d p).1, (mouvement d p).2, terminee (mouvement d p).1)
    else
      nouveau ← _ajouter_tuile (mouvement d p).1 k r;
      Ret (nouveau, (mouvement d p).2, terminee (mouvement d p).1).
Proof.
  intros Hp. unfold jouer_coup. rewrite coup_spec, bind_Ret by done.
  destruct (mouvement_est_correct d p Hp) as (Hbf & _).
  destruct (mouvement d p) as [res pts]. cbn [fst snd] in *.
  rewrite partie_terminee_spec by done.
  destruct (bool_decide (p = res)); [done|].
  by destruct (_ajouter_tuile res k r).
Qed.
End Coup.

(** * The claims *)

(** ** Terminal detection *)

Lemma cellule_bornes (p : plateau) i j x :
  bien_forme p → cellule p i j = Some x → (i < TAILLE)%nat ∧ (j < TAILLE)%nat.
Proof.
  intros [Hl Hr] H. unfold cellule in H.
  destruct (p !! i) as [l|] eqn:Hi; [|done]. simpl in H.
  apply lookup_lt_Some in Hi as Hi'. apply lookup_lt_Some in H.
  rewrite Forall_forall in Hr. rewrite (Hr l) in H; [lia|].
  by eapply list_elem_of_lookup_2.
Qed.

Lemma plein_cases_vides (p : plateau) :
  bien_forme p → cases_vides p = [] ↔ plein p.
Proof.
  intros Hp. rewrite cases_vides_nil, a_vide_cellule by done. split.
  - intros Hno i j x Hx ->. apply Hno. exists i, j.
    destruct (cellule_bornes p i j 0 Hp Hx). done.
  - intros Hpl (i & j & _ & _ & H). by apply (Hpl i j 0).
Qed.

Lemma head_lookup {A : Type} (l : list A) : head l = l !! 0%nat.
Proof. by destruct l. Qed.

Lemma colonnes_sans_paire (p : plateau) :
  bien_forme p → plein p →
  (∀ n, n ∈ seq 0 TAILLE → paire (colonne p n) 0 = false)
  ↔ sans_paire_verticale p.
Proof.
  intros Hp Hpl. split.
  - intros H i j x y Hx Hy.
    destruct (cellule_bornes p i j x Hp Hx) as [_ Hj].
    assert (Hin : j ∈ seq 0 TAILLE) by (apply elem_of_seq; lia).
    apply H, paire_false in Hin as [_ Hadj].
    apply (Hadj i); by apply cellule_colonne.
  - intros Hv n Hn. apply elem_of_seq in Hn. apply paire_false. split.
    + intros x Hx. rewrite head_lookup in Hx.
      apply colonne_cellule in Hx; [|done|lia]. by apply (Hpl 0%nat n).
    + intros i x y Hx Hy.
      apply colonne_cellule in Hx, Hy; [|done|lia|done|lia]. by apply (Hv i n).
Qed.

Lemma rangees_sans_paire (p : plateau) :
  bien_forme p → plein p →
  (∀ n, n ∈ seq 0 TAILLE → paire (rangee p n) 0 = false)
  ↔ sans_paire_horizontale p.
Proof.
  intros Hp Hpl. split.
  - intros H i j x y Hx Hy.
    destruct (cellule_bornes p i j x Hp Hx) as [Hi _].
    assert (Hin : i ∈ seq 0 TAILLE) by (apply elem_of_seq; lia).
    apply H, paire_false in Hin as [_ Hadj].
    apply (Hadj j); by apply cellule_rangee.
  - intros Hh n Hn. apply elem_of_seq in Hn. apply paire_false. split.
    + intros x Hx. rewrite head_lookup in Hx.
      apply rangee_cellule in Hx; [|done|lia]. by apply (Hpl n 0%nat).
    + intros j x y Hx Hy.
      apply rangee_cellule in Hx, Hy; [|done|lia|done|lia]. by apply (Hh n j).
Qed.

Lemma terminee_iff (p : plateau) :
  bien_forme p →
  terminee p = true
  ↔ plein p ∧ sans_paire_horizontale p ∧ sans_paire_verticale p.
Proof.
  intros Hp. unfold terminee.
  rewrite !andb_true_iff, bool_decide_eq_true, !negb_true_iff, !existsb_false.
  rewrite plein_cases_vides by done. split.
  - intros [[Hpl Hc] Hr]. split; [done|]. split.
    + by apply rangees_sans_paire.
    + by apply colonnes_sans_paire.
  - intros (Hpl & Hh & Hv). split; [split; [done|]|].
    + by apply colonnes_sans_paire.
    + by apply rangees_sans_paire.
Qed.

(** C4. On a board of [TAILLE] by [TAILLE] cells [_partie_terminee] returns,
    and what it returns is [True] exactly when no cell is empty, no cell
    equals its right-hand neighbour and no cell equals the cell below it. So
    a board with an empty cell is never terminal, and neither is a full board
    with two equal neighbours. *)
Theorem partie_terminee_iff (p : plateau) :
  bien_forme p →
  ∃ fini, _partie_terminee p = Ret fini
          ∧ (fini = true
             ↔ plein p ∧ sans_paire_horizontale p ∧ sans_paire_verticale p)
          ∧ (a_vide p → fini = false)
          ∧ (plein p → ¬ (sans_paire_horizontale p ∧ sans_paire_verticale p) →
             fini = false).
Proof.
  intros Hp. exists (terminee p).
  split; [by apply partie_terminee_spec|].
  pose proof (terminee_iff p Hp) as Hiff.
  split; [done|]. split.
  - intros Hv. pose proof (partie_terminee_vide p Hp Hv) as H.
    rewrite partie_terminee_spec in H by done. by injection H.
  - intros Hpl Hno. apply not_true_is_false. rewrite Hiff. tauto.
Qed.

Lemma plateau_bloque_bien_forme : bien_forme plateau_bloque.
Proof. split; [done|]. by repeat constructor. Defined.

Lemma partie_terminee_iff_witness :
  ∃ fini, _partie_terminee plateau_bloque = Ret fini
          ∧ (fini = true
             ↔ plein plateau_bloque ∧ sans_paire_horizontale plateau_bloque
               ∧ sans_paire_verticale plateau_bloque)
          ∧ (a_vide plateau_bloque → fini = false)
          ∧ (plein plateau_bloque →
             ¬ (sans_paire_horizontale plateau_bloque
                ∧ sans_paire_verticale plateau_bloque) →
             fini = false).
Proof. apply (partie_terminee_iff plateau_bloque plateau_bloque_bien_forme). Defined.
(** ** One turn of the game *)

(** C10. On a board of [TAILLE] by [TAILLE] cells and for a legal direction,
    the directional move returns a candidate; when the candidate differs from
    the input it has an empty cell, the terminal test on it answers [False],
    and [jouer_coup] returns the points of the move with the flag [False]. *)
Theorem jouer_coup_change_non_fini (p : plateau) (d : string) (k : nat) (r : Q) :
  bien_forme p → direction_legale d →
  ∃ cand pts,
    coup p d = Ret (cand, pts)
    ∧ (cand ≠ p →
       a_vide cand
       ∧ _partie_terminee cand = Ret false
       ∧ ∃ nouveau, jouer_coup p d k r = Ret (nouveau, pts, false)).
Proof.
  intros Hp _. exists (mouvement d p).1, (mouvement d p).2.
  split; [rewrite coup_spec by done; by destruct (mouvement d p)|].
  intros Hne.
  destruct (mouvement_est_correct d p Hp) as (Hbf & _ & Hch).
  specialize (Hch Hne).
  pose proof (partie_terminee_vide _ Hbf Hch) as Hfin.
  split; [done|]. split; [done|].
  rewrite jouer_coup_spec by done.
  rewrite bool_decide_eq_false_2 by congruence.
  destruct (ajouter_tuile_vide _ k r Hbf Hch) as (i & j & l & _ & _ & _ & _ & ->).
  rewrite bind_Ret. rewrite partie_terminee_spec in Hfin by done.
  injection Hfin as ->. by eexists.
Qed.

Lemma plateau_fusion_bien_forme : bien_forme plateau_fusion.
Proof. split; [done|]. by repeat constructor. Defined.

Lemma jouer_coup_change_non_fini_witness :
  ∃ cand pts,
    coup plateau_fusion "g" = Ret (cand, pts)
    ∧ (cand ≠ plateau_fusion →
       a_vide cand
       ∧ _partie_terminee cand = Ret false
       ∧ ∃ nouveau,
           jouer_coup plateau_fusion "g" 0 (1 # 2) = Ret (nouveau, pts, false)).
Proof.
  apply (jouer_coup_change_non_fini plateau_fusion "g" 0 (1 # 2)
           plateau_fusion_bien_forme).
  unfold direction_legale. apply list_elem_of_here.
Defined.

(** C5. On a board of [TAILLE] by [TAILLE] cells and whatever the direction,
    when the candidate the directional move returns is the input board, the
    move has earned no point and [jouer_coup] returns the input board as it
    is, with 0 points and the terminal flag of that board: no tile is
    spawned. *)
Theorem jouer_coup_sans_effet (p : plateau) (d : string) (k : nat) (r : Q)
  (cand : plateau) (pts : Z) :
  bien_forme p → coup p d = Ret (cand, pts) → cand = p →
  pts = 0
  ∧ ∃ fini, _partie_terminee p = Ret fini
            ∧ jouer_coup p d k r = Ret (p, 0, fini).
Proof.
  intros Hp Hc ->. rewrite coup_spec in Hc by done. injection Hc as Hm.
  destruct (mouvement_est_correct d p Hp) as (_ & Hfix & _).
  rewrite Hm in Hfix. cbn [fst snd] in Hfix. specialize (Hfix eq_refl) as ->.
  split; [done|]. exists (terminee p).
  split; [by apply partie_terminee_spec|].
  rewrite jouer_coup_spec, Hm by done. cbn [fst snd].
  by rewrite bool_decide_eq_true_2.
Qed.

Lemma plateau_tasse_bien_forme : bien_forme plateau_tasse.
Proof. split; [done|]. by repeat constructor. Defined.

Lemma jouer_coup_sans_effet_witness :
  0 = 0
  ∧ ∃ fini, _partie_terminee plateau_tasse = Ret fini
            ∧ jouer_coup plateau_tasse "g" 3 (1 # 4) = Ret (plateau_tasse, 0, fini).
Proof.
  apply (jouer_coup_sans_effet plateau_tasse "g" 3 (1 # 4) plateau_tasse 0
           plateau_tasse_bien_forme); reflexivity.
Defined.

(** C6. On a board of [TAILLE] by [TAILLE] cells, a direction that is none of
    ['g'], ['d'], ['h'], ['b'] makes [jouer_coup] return, without raising,
    the input board as it is, 0 points and the terminal flag of the input
    board. *)
Theorem jouer_coup_direction_inconnue (p : plateau) (d : string) (k : nat) (r : Q) :
  bien_forme p → ¬ direction_legale d →
  ∃ fini, _partie_terminee p = Ret fini
          ∧ jouer_coup p d k r = Ret (p, 0, fini).
Proof.
  intros Hp Hd. exists (terminee p).
  split; [by apply partie_terminee_spec|].
  rewrite jouer_coup_spec, mouvement_illegal by done. cbn [fst snd].
  by rewrite bool_decide_eq_true_2.
Qed.

Lemma jouer_coup_direction_inconnue_witness :
  ∃ fini, _partie_terminee plateau_fusion = Ret fini
          ∧ jouer_coup plateau_fusion "x" 0 (1 # 2) = Ret (plateau_fusion, 0, fini).
Proof.
  apply (jouer_coup_direction_inconnue plateau_fusion "x" 0 (1 # 2)
           plateau_fusion_bien_forme).
  unfold direction_legale. rewrite !elem_of_cons, elem_of_nil.
  intros [H|[H|[H|[H|[]]]]]; discriminate H.
Defined.

(** C1. The code at one input: moving [plateau_fusion] to the left changes
    the board, one tile is spawned, and the board returned is full with no
    two equal neighbours, so the terminal test answers [True] on it; the flag
    returned with it is [False], the answer of the test on the candidate
    before the spawn. *)
Theorem jouer_coup_drapeau_avant_tuile :
  coup plateau_fusion "g"
  = Ret ([[4; 8; 16; 0]; [8; 16; 32; 64]; [4; 8; 16; 32]; [8; 16; 32; 64]], 4)
  ∧ jouer_coup plateau_fusion "g" 0 (1 # 2) = Ret (plateau_fusion_suite, 4, false)
  ∧ _partie_terminee plateau_fusion_suite = Ret true.
Proof. repeat split; vm_compute; reflexivity. Qed.
(** ** The spawn and the new game *)

Section Tuiles.
Implicit Types (p : plateau) (l : list Z).

Lemma nb_non_vides_cons x l :
  nb_non_vides (x :: l)
  = if decide (x = 0) then nb_non_vides l else S (nb_non_vides l).
Proof.
  unfold nb_non_vides, _supprimer_zeros. destruct (decide (x = 0)).
  - by rewrite filter_cons_False by (intros ?; done).
  - by rewrite filter_cons_True.
Qed.

Lemma nb_non_vides_insert l : ∀ j v,
  l !! j = Some 0 → v ≠ 0 →
  nb_non_vides (<[j := v]> l) = S (nb_non_vides l).
Proof.
  induction l as [|x l IH]; intros [|j] v Hj Hv; simplify_eq/=.
  - rewrite !nb_non_vides_cons. by repeat case_decide.
  - rewrite !nb_non_vides_cons. rewrite (IH j v) by done. by case_decide.
Qed.

Lemma nb_tuiles_insert p : ∀ i l l',
  p !! i = Some l → nb_non_vides l' = S (nb_non_vides l) →
  nb_tuiles (<[i := l']> p) = S (nb_tuiles p).
Proof.
  unfold nb_tuiles.
  induction p as [|m p IH]; intros [|i] l l' Hi Hl; simplify_eq/=.
  - by rewrite Hl.
  - rewrite (IH i l l') by done. lia.
Qed.

Lemma bien_forme_insert p i j l v :
  bien_forme p → p !! i = Some l → bien_forme (<[i := <[j := v]> l]> p).
Proof.
  intros [Hl Hr] Hi. split; [by rewrite length_insert|].
  apply Forall_insert; [done|]. rewrite length_insert.
  rewrite Forall_forall in Hr. apply Hr. by eapply list_elem_of_lookup_2.
Qed.

Lemma cellule_insert p i j l v i' j' :
  p !! i = Some l → is_Some (l !! j) →
  cellule (<[i := <[j := v]> l]> p) i' j'
  = if decide (i = i' ∧ j = j') then Some v else cellule p i' j'.
Proof.
  intros Hi Hj. unfold cellule.
  apply lookup_lt_Some in Hi as Hi'. apply lookup_lt_is_Some in Hj.
  destruct (decide (i = i')) as [<-|Hne].
  - rewrite list_lookup_insert_eq by done. simpl.
    destruct (decide (j = j')) as [<-|Hnej].
    + rewrite list_lookup_insert_eq by done. by rewrite decide_True.
    + rewrite list_lookup_insert_ne by done. rewrite Hi. simpl.
      by rewrite decide_False by tauto.
  - rewrite list_lookup_insert_ne by done. by rewrite decide_False by tauto.
Qed.
End Tuiles.

Lemma ajouter_tuile_deux (p : plateau) (k : nat) (r : Q) :
  bien_forme p → a_vide p → tirage r →
  ∃ i j l, p !! i = Some l ∧ l !! j = Some 0
           ∧ _ajouter_tuile p k r = Ret (<[i := <[j := 2]> l]> p).
Proof.
  intros Hp Hv Hr.
  destruct (ajouter_tuile_vide p k r Hp Hv) as (i & j & l & _ & _ & Hi & Hj & H).
  exists i, j, l. rewrite (int_tirage r Hr) in H. done.
Qed.

(** C2, as the code has it. On a board of [TAILLE] by [TAILLE] cells with an
    empty cell and for every draw [r] of the interval from 0 to 1, 1
    excluded, [_ajouter_tuile] returns the board with one of its empty cells
    overwritten, and the value written is 2: the value 4 is never written. *)
Theorem ajouter_tuile_toujours_2 (p : plateau) (k : nat) (r : Q) :
  bien_forme p → a_vide p → tirage r →
  ∃ i j l, p !! i = Some l ∧ l !! j = Some 0
           ∧ _ajouter_tuile p k r = Ret (<[i := <[j := 2]> l]> p).
Proof.
  intros Hp Hv Hr.
  destruct (ajouter_tuile_vide p k r Hp Hv) as (i & j & l & _ & _ & Hi & Hj & H).
  exists i, j, l. split; [done|]. split; [done|].
  by rewrite (int_tirage r Hr) in H.
Qed.

Lemma tirage_neuf_dixiemes : tirage (9 # 10).
Proof. split; unfold Qle, Qlt; simpl; lia. Defined.

Lemma creer_plateau_vide_bien_forme : bien_forme _creer_plateau_vide.
Proof. split; [done|]. by repeat constructor. Defined.

Lemma creer_plateau_vide_a_vide : a_vide _creer_plateau_vide.
Proof. apply Exists_cons_hd, list_elem_of_here. Defined.

Lemma ajouter_tuile_toujours_2_witness :
  ∃ i j l, _creer_plateau_vide !! i = Some l ∧ l !! j = Some 0
           ∧ _ajouter_tuile _creer_plateau_vide 5 (9 # 10)
             = Ret (<[i := <[j := 2]> l]> _creer_plateau_vide).
Proof.
  apply (ajouter_tuile_toujours_2 _creer_plateau_vide 5 (9 # 10)
           creer_plateau_vide_bien_forme creer_plateau_vide_a_vide
           tirage_neuf_dixiemes).
Defined.

(** C2, as the claim has it, fails: the draw 9/10 is a draw of the interval,
    it is not below the threshold 3/4, and the tile spawned with it on the
    empty board is a 2, not a 4. *)
Lemma ajouter_tuile_tirage_haut :
  tirage (9 # 10) ∧ Qle (3 # 4) (9 # 10)
  ∧ _ajouter_tuile _creer_plateau_vide 0 (9 # 10)
    = Ret [[2; 0; 0; 0]; [0; 0; 0; 0]; [0; 0; 0; 0]; [0; 0; 0; 0]].
Proof.
  split; [exact tirage_neuf_dixiemes|].
  split; [unfold Qle; simpl; lia|]. vm_compute. reflexivity.
Qed.

(** C8. Whatever the four draws, [nouvelle_partie] returns a board of
    [TAILLE] by [TAILLE] cells and the score 0; the board has exactly two
    tiles, every cell is empty or holds 2 or 4, and the two spawned tiles
    sit in two distinct cells. *)
Theorem nouvelle_partie_deux_tuiles (k1 : nat) (r1 : Q) (k2 : nat) (r2 : Q) :
  tirage r1 → tirage r2 →
  ∃ p, nouvelle_partie k1 r1 k2 r2 = Ret (p, 0)
       ∧ bien_forme p
       ∧ nb_tuiles p = 2%nat
       ∧ (∀ i j x, cellule p i j = Some x → x = 0 ∨ x = 2 ∨ x = 4)
       ∧ ∃ i1 j1 i2 j2,
           (i1, j1) ≠ (i2, j2)
           ∧ cellule p i1 j1 = Some 2 ∧ cellule p i2 j2 = Some 2.
Proof.
  intros Hr1 Hr2. unfold nouvelle_partie.
  set (p0 := _creer_plateau_vide).
  assert (Hp0 : bien_forme p0) by apply creer_plateau_vide_bien_forme.
  assert (Hz0 : ∀ i j x, cellule p0 i j = Some x → x = 0).
  { intros i j x Hx. destruct (cellule_bornes p0 i j x Hp0 Hx) as [Hi Hj].
    unfold TAILLE in Hi, Hj.
    destruct i as [|[|[|[|]]]]; try lia;
      destruct j as [|[|[|[|]]]]; try lia; by injection Hx. }
  destruct (ajouter_tuile_deux p0 k1 r1 Hp0 creer_plateau_vide_a_vide Hr1)
    as (i1 & j1 & l1 & Hi1 & Hj1 & ->).
  rewrite bind_Ret. set (p1 := <[i1 := <[j1 := 2]> l1]> p0).
  assert (Hp1 : bien_forme p1) by by apply bien_forme_insert.
  assert (Hc1 : ∀ i j, cellule p1 i j
                       = if decide (i1 = i ∧ j1 = j) then Some 2
                         else cellule p0 i j).
  { intros i j. by apply cellule_insert. }
  assert (Hv1 : a_vide p1).
  { apply a_vide_cellule; [done|].
    destruct (decide (i1 = 0%nat ∧ j1 = 0%nat)) as [[-> ->]|Hne].
    - exists 0%nat, 1%nat. unfold TAILLE. split; [lia|]. split; [lia|].
      rewrite Hc1. by rewrite decide_False by (intros [_ ?]; done).
    - exists 0%nat, 0%nat. unfold TAILLE. split; [lia|]. split; [lia|].
      rewrite Hc1. by rewrite decide_False. }
  destruct (ajouter_tuile_deux p1 k2 r2 Hp1 Hv1 Hr2)
    as (i2 & j2 & l2 & Hi2 & Hj2 & ->).
  rewrite bind_Ret. set (p2 := <[i2 := <[j2 := 2]> l2]> p1).
  assert (Hc2 : ∀ i j, cellule p2 i j
                       = if decide (i2 = i ∧ j2 = j) then Some 2
                         else cellule p1 i j).
  { intros i j. by apply cellule_insert. }
  assert (H12 : (i1, j1) ≠ (i2, j2)).
  { intros [= <- <-]. assert (H : cellule p1 i1 j1 = Some 0).
    { unfold cellule. by rewrite Hi2. }
    rewrite Hc1, decide_True in H by done. done. }
  exists p2. split; [done|]. split; [by apply bien_forme_insert|]. split.
  - unfold p2, p1.
    rewrite (nb_tuiles_insert _ i2 l2), (nb_tuiles_insert _ i1 l1)
      by (done || by apply nb_non_vides_insert).
    done.
  - split.
    + intros i j x. rewrite Hc2, Hc1. repeat case_decide.
      * intros [= <-]. auto.
      * intros [= <-]. auto.
      * intros Hx. left. by eapply Hz0.
    + exists i1, j1, i2, j2. split; [done|]. split.
      * rewrite Hc2, Hc1. rewrite decide_False by (intros [-> ->]; done).
        by rewrite decide_True.
      * rewrite Hc2. by rewrite decide_True.
Qed.

Lemma tirage_un_demi : tirage (1 # 2).
Proof. split; unfold Qle, Qlt; simpl; lia. Defined.

Lemma nouvelle_partie_deux_tuiles_witness :
  ∃ p, nouvelle_partie 5 (1 # 2) 5 (9 # 10) = Ret (p, 0)
       ∧ bien_forme p
       ∧ nb_tuiles p = 2%nat
       ∧ (∀ i j x, cellule p i j = Some x → x = 0 ∨ x = 2 ∨ x = 4)
       ∧ ∃ i1 j1 i2 j2,
           (i1, j1) ≠ (i2, j2)
           ∧ cellule p i1 j1 = Some 2 ∧ cellule p i2 j2 = Some 2.
Proof.
  apply (nouvelle_partie_deux_tuiles 5 (1 # 2) 5 (9 # 10)
           tirage_un_demi tirage_neuf_dixiemes).
Defined.
(** ** The merge of one line *)

(** C3. The line primitive merges in one pass from the left: [2,2,2,2]
    gives [4,4,0,0] and 8 points, never [8,0,0,0], and [4,4,8] gives
    [8,8,0,0]. On a line without zeros, two equal cells at the head become
    one cell of twice the value, worth that many points, and what follows
    it is what the pass makes of the rest of the line alone, so the merged
    cell takes part in no other merge; two distinct cells at the head leave
    the first one as it is. *)
Theorem fusionner_une_passe :
  deplacer_ligne [2; 2; 2; 2] = Ret ([4; 4; 0; 0], 8)
  ∧ (∀ pts, deplacer_ligne [2; 2; 2; 2] ≠ Ret ([8; 0; 0; 0], pts))
  ∧ deplacer_ligne [4; 4; 8] = Ret ([8; 8; 0; 0], 8)
  ∧ (∀ x l, x ≠ 0 → Forall (λ v, v ≠ 0) l →
       ∃ m pts, _fusionner l = Ret (m, pts)
                ∧ _fusionner (x :: x :: l) = Ret (x * 2 :: m, x * 2 + pts))
  ∧ (∀ x y l, x ≠ y → Forall (λ v, v ≠ 0) (x :: y :: l) →
       ∃ m pts, _fusionner (y :: l) = Ret (m, pts)
                ∧ _fusionner (x :: y :: l) = Ret (x :: m, pts)).
Proof.
  split; [reflexivity|]. split; [intros pts; vm_compute; congruence|].
  split; [reflexivity|]. split.
  - intros x l Hx Hl. exists (fusion l).1, (fusion l).2. split.
    + rewrite fusionner_sans_zero by done. by destruct (fusion l).
    + rewrite fusionner_sans_zero by (by repeat constructor).
      by rewrite fusion_egal.
  - intros x y l Hxy Hl. exists (fusion (y :: l)).1, (fusion (y :: l)).2. split.
    + rewrite fusionner_sans_zero by (by apply Forall_cons in Hl as [_ ?]).
      by destruct (fusion (y :: l)).
    + rewrite fusionner_sans_zero by done. by rewrite fusion_distinct.
Qed.

Lemma fusionner_une_passe_witness :
  ∃ m pts, _fusionner [4; 8] = Ret (m, pts)
           ∧ _fusionner [2; 2; 4; 8] = Ret (2 * 2 :: m, 2 * 2 + pts).
Proof.
  apply (proj1 (proj2 (proj2 (proj2 fusionner_une_passe))) 2 [4; 8]).
  - discriminate.
  - repeat constructor; discriminate.
Defined.

(** ** The four directions *)

Lemma spec_move_right (p : plateau) : Spec.move_right p = Ret (droite p).
Proof.
  unfold Spec.move_right, Spec.via, Spec.move_left.
  rewrite deplacer_gauche_spec, bind_Ret. unfold droite, conjugue.
  by destruct (gauche (Spec.reverse_rows p)).
Qed.

Lemma transpose_cellule (p : plateau) i j :
  bien_forme p → cellule (Spec.transpose p) i j = cellule p j i.
Proof.
  intros (a0&a1&a2&a3&b0&b1&b2&b3&c0&c1&c2&c3&d0&d1&d2&d3&->)%bien_forme_inv.
  destruct i as [|[|[|[|i]]]]; destruct j as [|[|[|[|j]]]]; reflexivity.
Qed.

Lemma reverse_rows_cellule (p : plateau) i j :
  bien_forme p → (j < TAILLE)%nat →
  cellule (Spec.reverse_rows p) i j = cellule p i (TAILLE - 1 - j).
Proof.
  intros (a0&a1&a2&a3&b0&b1&b2&b3&c0&c1&c2&c3&d0&d1&d2&d3&->)%bien_forme_inv Hj.
  unfold TAILLE in *.
  destruct i as [|[|[|[|i]]]]; destruct j as [|[|[|[|j]]]]; try lia; reflexivity.
Qed.

(** C7. On a board of [TAILLE] by [TAILLE] cells the four moves return, and
    [_deplacer_droite] is reverse rows, move left, reverse rows;
    [_deplacer_haut] is Spec.transpose, move left, Spec.transpose; [_deplacer_bas] is
    Spec.transpose, move right, Spec.transpose: same grid and same points as the inner
    move. Reverse rows mirrors every row and Spec.transpose swaps the two
    indices of every cell. *)
Theorem directions_par_symetrie (p : plateau) :
  bien_forme p →
  (∃ m pts, _deplacer_gauche (Spec.reverse_rows p) = Ret (m, pts)
            ∧ _deplacer_droite p = Ret (Spec.reverse_rows m, pts))
  ∧ (∃ m pts, _deplacer_gauche (Spec.transpose p) = Ret (m, pts)
              ∧ _deplacer_haut p = Ret (Spec.transpose m, pts))
  ∧ (∃ m pts, _deplacer_droite (Spec.transpose p) = Ret (m, pts)
              ∧ _deplacer_bas p = Ret (Spec.transpose m, pts))
  ∧ _deplacer_droite p = Spec.move_right p
  ∧ _deplacer_haut p = Spec.move_up p
  ∧ _deplacer_bas p = Spec.move_down p
  ∧ (∀ i j, (j < TAILLE)%nat →
            cellule (Spec.reverse_rows p) i j = cellule p i (TAILLE - 1 - j))
  ∧ (∀ i j, cellule (Spec.transpose p) i j = cellule p j i).
Proof.
  intros Hp.
  split; [|split; [|split; [|split; [|split; [|split; [|split]]]]]].
  - exists (gauche (Spec.reverse_rows p)).1, (gauche (Spec.reverse_rows p)).2.
    rewrite deplacer_gauche_spec, deplacer_droite_spec.
    split; [by destruct (gauche (Spec.reverse_rows p))|done].
  - exists (gauche (Spec.transpose p)).1, (gauche (Spec.transpose p)).2.
    rewrite deplacer_gauche_spec, deplacer_haut_spec by done.
    split; [by destruct (gauche (Spec.transpose p))|done].
  - exists (droite (Spec.transpose p)).1, (droite (Spec.transpose p)).2.
    rewrite deplacer_droite_spec, deplacer_bas_spec by done.
    split; [by destruct (droite (Spec.transpose p))|done].
  - by rewrite spec_move_right, deplacer_droite_spec.
  - rewrite deplacer_haut_spec by done.
    unfold Spec.move_up, Spec.via, Spec.move_left.
    rewrite deplacer_gauche_spec, bind_Ret. unfold haut, conjugue.
    by destruct (gauche (Spec.transpose p)).
  - rewrite deplacer_bas_spec by done.
    unfold Spec.move_down, Spec.via.
    rewrite spec_move_right, bind_Ret. unfold bas, conjugue.
    by destruct (droite (Spec.transpose p)).
  - intros i j Hj. by apply reverse_rows_cellule.
  - intros i j. by apply transpose_cellule.
Qed.

Lemma directions_par_symetrie_witness :
  (∃ m pts, _deplacer_gauche (Spec.reverse_rows plateau_fusion) = Ret (m, pts)
            ∧ _deplacer_droite plateau_fusion = Ret (Spec.reverse_rows m, pts))
  ∧ (∃ m pts, _deplacer_gauche (Spec.transpose plateau_fusion) = Ret (m, pts)
              ∧ _deplacer_haut plateau_fusion = Ret (Spec.transpose m, pts))
  ∧ (∃ m pts, _deplacer_droite (Spec.transpose plateau_fusion) = Ret (m, pts)
              ∧ _deplacer_bas plateau_fusion = Ret (Spec.transpose m, pts))
  ∧ _deplacer_droite plateau_fusion = Spec.move_right plateau_fusion
  ∧ _deplacer_haut plateau_fusion = Spec.move_up plateau_fusion
  ∧ _deplacer_bas plateau_fusion = Spec.move_down plateau_fusion
  ∧ (∀ i j, (j < TAILLE)%nat →
            cellule (Spec.reverse_rows plateau_fusion) i j
            = cellule plateau_fusion i (TAILLE - 1 - j))
  ∧ (∀ i j, cellule (Spec.transpose plateau_fusion) i j
            = cellule plateau_fusion j i).
Proof.
  apply (directions_par_symetrie plateau_fusion plateau_fusion_bien_forme).
Defined.
(** ** The line primitive applied again *)

Lemma paire_non_vide_cons (x y : Z) (l : list Z) :
  paire_non_vide (x :: y :: l)
  = ((x =? y) && negb (x =? 0)) || paire_non_vide (y :: l).
Proof. reflexivity. Qed.

Lemma adjacents_cons (x y : Z) (l : list Z) :
  adjacents (x :: y :: l) = (x =? y) || adjacents (y :: l).
Proof. reflexivity. Qed.

Lemma fusion_sans_adjacents (l : list Z) :
  adjacents l = false → fusion l = (l, 0).
Proof.
  induction l as [|x|x l IH|x y l Hxy IH] using fusion_induction; [done..| |].
  - cbn [adjacents]. by rewrite Z.eqb_refl.
  - rewrite adjacents_cons, orb_false_iff. intros [_ H].
    rewrite fusion_distinct, IH by done. done.
Qed.

Lemma fusion_adjacents (l : list Z) :
  adjacents l = true → (length (fusion l).1 < length l)%nat.
Proof.
  induction l as [|x|x l IH|x y l Hxy IH] using fusion_induction; [done..| |].
  - intros _. rewrite fusion_egal. cbn [fst length].
    pose proof (fusion_length l). lia.
  - rewrite adjacents_cons.
    destruct (Z.eqb_spec x y); [done|]. cbn [orb]. intros H.
    rewrite fusion_distinct by done. cbn [fst length] in *.
    specialize (IH H). lia.
Qed.

Lemma adjacents_court (l : list Z) : (length l ≤ 1)%nat → adjacents l = false.
Proof. destruct l as [|x [|y l]]; simpl; [done..|lia]. Qed.

(** Three passes leave no two equal neighbours in a line of at most four
    cells: a pass that finds two equal neighbours shortens the line. *)
Lemma fusion_trois_passes (s : list Z) :
  (length s ≤ 4)%nat →
  adjacents (fusion (fusion (fusion s).1).1).1 = false.
Proof.
  intros Hs.
  set (s1 := (fusion s).1). set (s2 := (fusion s1).1). set (s3 := (fusion s2).1).
  destruct (adjacents s3) eqn:H3; [exfalso|done].
  assert (H2 : adjacents s2 = true).
  { destruct (adjacents s2) eqn:E; [done|].
    unfold s3 in H3. rewrite (fusion_sans_adjacents s2 E) in H3.
    cbn [fst] in H3. congruence. }
  assert (H1 : adjacents s1 = true).
  { destruct (adjacents s1) eqn:E; [done|].
    unfold s2 in H2. rewrite (fusion_sans_adjacents s1 E) in H2.
    cbn [fst] in H2. congruence. }
  assert (H0 : adjacents s = true).
  { destruct (adjacents s) eqn:E; [done|].
    unfold s1 in H1. rewrite (fusion_sans_adjacents s E) in H1.
    cbn [fst] in H1. congruence. }
  apply fusion_adjacents in H0, H1, H2. fold s1 in H0. fold s2 in H1.
  fold s3 in H2. rewrite adjacents_court in H3 by lia. done.
Qed.

Lemma paire_non_vide_zeros (n : nat) : paire_non_vide (replicate n 0) = false.
Proof.
  induction n as [|n IH]; [done|]. destruct n; [done|].
  change (replicate (S (S n)) 0) with (0 :: 0 :: replicate n 0).
  rewrite paire_non_vide_cons. exact IH.
Qed.

Lemma paire_non_vide_complete (m : list Z) (n : nat) :
  Forall (λ v, v ≠ 0) m → paire_non_vide (m ++ replicate n 0) = adjacents m.
Proof.
  intros Hm. induction Hm as [|x m Hx Hm IH].
  - apply paire_non_vide_zeros.
  - destruct m as [|y m].
    + destruct n as [|n]; [done|].
      change ([x] ++ replicate (S n) 0) with (x :: 0 :: replicate n 0).
      rewrite paire_non_vide_cons.
      change (0 :: replicate n 0) with (replicate (S n) 0).
      rewrite paire_non_vide_zeros. by destruct (Z.eqb_spec x 0).
    + change ((x :: y :: m) ++ replicate n 0)
        with (x :: y :: (m ++ replicate n 0)).
      rewrite paire_non_vide_cons, adjacents_cons.
      change (y :: (m ++ replicate n 0)) with ((y :: m) ++ replicate n 0).
      rewrite IH. destruct (Z.eqb_spec x 0); [done|].
      by rewrite andb_true_r.
Qed.

Lemma supprimer_zeros_deplace (l : list Z) :
  _supprimer_zeros (deplace l).1 = (fusion (_supprimer_zeros l)).1.
Proof.
  unfold deplace. cbn [fst]. apply supprimer_zeros_complete.
  apply fusion_sans_zero, supprimer_zeros_sans_zero.
Qed.

(** C9, as the code has it. On a line of at most [TAILLE] cells the line
    primitive returns each time it is applied; applied twice it leaves at
    most as many tiles as the line had, and applied three times it leaves no
    two equal neighbouring tiles. *)
Theorem deplacer_ligne_repete (l : list Z) :
  (length l ≤ TAILLE)%nat →
  ∃ l1 p1 l2 p2 l3 p3,
    deplacer_ligne l = Ret (l1, p1)
    ∧ deplacer_ligne l1 = Ret (l2, p2)
    ∧ deplacer_ligne l2 = Ret (l3, p3)
    ∧ (nb_non_vides l2 ≤ nb_non_vides l)%nat
    ∧ paire_non_vide l3 = false.
Proof.
  intros Hl.
  exists (deplace l).1, (deplace l).2.
  exists (deplace (deplace l).1).1, (deplace (deplace l).1).2.
  exists (deplace (deplace (deplace l).1).1).1,
         (deplace (deplace (deplace l).1).1).2.
  rewrite !deplacer_ligne_spec.
  split; [by destruct (deplace l)|].
  split; [by destruct (deplace (deplace l).1)|].
  split; [by destruct (deplace (deplace (deplace l).1).1)|].
  split.
  - unfold nb_non_vides. rewrite !supprimer_zeros_deplace.
    pose proof (fusion_length (_supprimer_zeros l)).
    pose proof (fusion_length (fusion (_supprimer_zeros l)).1). lia.
  - unfold deplace at 1. cbn [fst]. unfold complete.
    rewrite paire_non_vide_complete
      by apply fusion_sans_zero, supprimer_zeros_sans_zero.
    rewrite !supprimer_zeros_deplace. apply fusion_trois_passes.
    pose proof (length_filter (λ v, v ≠ 0) l).
    unfold _supprimer_zeros, TAILLE in *. lia.
Qed.

Lemma deplacer_ligne_repete_witness :
  ∃ l1 p1 l2 p2 l3 p3,
    deplacer_ligne ligne_2248 = Ret (l1, p1)
    ∧ deplacer_ligne l1 = Ret (l2, p2)
    ∧ deplacer_ligne l2 = Ret (l3, p3)
    ∧ (nb_non_vides l2 ≤ nb_non_vides ligne_2248)%nat
    ∧ paire_non_vide l3 = false.
Proof.
  apply (deplacer_ligne_repete ligne_2248). unfold TAILLE. simpl. lia.
Defined.

(** C9, as the claim has it, fails: the line [2,2,4,8] has at most [TAILLE]
    cells, all of them powers of two, and two applications of the primitive
    leave [8,8,0,0], where two equal tiles are neighbours. *)
Lemma deplacer_ligne_deux_fois_paire :
  deplacer_ligne ligne_2248 = Ret ([4; 4; 8; 0], 4)
  ∧ deplacer_ligne [4; 4; 8; 0] = Ret ([8; 8; 0; 0], 8)
  ∧ paire_non_vide [8; 8; 0; 0] = true.
Proof. repeat split; reflexivity. Qed.

(** * Further properties of the code *)

Lemma somme_app (l1 l2 : list Z) : somme (l1 ++ l2) = somme l1 + somme l2.
Proof.
  unfold somme. induction l1 as [|x l1 IH]; simpl; [done|]. rewrite IH. lia.
Qed.

Lemma somme_zeros (n : nat) : somme (replicate n 0) = 0.
Proof. unfold somme. induction n as [|n IH]; simpl; [done|]. by rewrite IH. Qed.

Lemma somme_supprimer_zeros (l : list Z) : somme (_supprimer_zeros l) = somme l.
Proof.
  unfold somme, _supprimer_zeros. induction l as [|x l IH]; [done|].
  destruct (decide (x = 0)) as [->|Hx].
  - rewrite filter_cons_False by (intros ?; done). simpl. by rewrite IH.
  - rewrite filter_cons_True by done. simpl. by rewrite IH.
Qed.

Lemma somme_fusion (l : list Z) : somme (fusion l).1 = somme l.
Proof.
  induction l as [|x|x l IH|x y l Hxy IH] using fusion_induction; [done..| |].
  - rewrite fusion_egal. cbn [fst]. unfold somme in *. simpl. rewrite IH. lia.
  - rewrite fusion_distinct by done. cbn [fst].
    change (somme (x :: (fusion (y :: l)).1)) with (x + somme (fusion (y :: l)).1).
    rewrite IH. done.
Qed.

Lemma somme_reverse (l : list Z) : somme (reverse l) = somme l.
Proof.
  induction l as [|x l IH]; [done|].
  rewrite reverse_cons, somme_app, IH. unfold somme. simpl. lia.
Qed.

Lemma somme_deplace (l : list Z) : somme (deplace l).1 = somme l.
Proof.
  unfold deplace, complete. cbn [fst].
  by rewrite somme_app, somme_zeros, somme_fusion, somme_supprimer_zeros, Z.add_0_r.
Qed.

Lemma total_cons (l : list Z) (p : plateau) : total (l :: p) = somme l + total p.
Proof. reflexivity. Qed.

Lemma total_gauche (p : plateau) : total (gauche p).1 = total p.
Proof.
  unfold gauche. cbn [fst]. induction p as [|l p IH]; [done|].
  rewrite fmap_cons, !total_cons, IH, somme_deplace. done.
Qed.

Lemma total_reverse_rows (p : plateau) : total (Spec.reverse_rows p) = total p.
Proof.
  unfold Spec.reverse_rows. induction p as [|l p IH]; [done|].
  rewrite fmap_cons, !total_cons, IH, somme_reverse. done.
Qed.

Lemma total_transpose (p : plateau) :
  bien_forme p → total (Spec.transpose p) = total p.
Proof.
  intros (a0&a1&a2&a3&b0&b1&b2&b3&c0&c1&c2&c3&d0&d1&d2&d3&->)%bien_forme_inv.
  unfold total, somme. cbn. lia.
Qed.

Section Conservation.
Variables (t : plateau → plateau) (m : plateau → plateau * Z).
Hypothesis t_bien_forme : ∀ p, bien_forme p → bien_forme (t p).
Hypothesis t_total : ∀ p, bien_forme p → total (t p) = total p.
Hypothesis m_correct : mouvement_correct m.
Hypothesis m_total : conserve_total m.

Lemma conjugue_conserve_total : conserve_total (conjugue t m).
Proof.
  intros p Hp. unfold conjugue. cbn [fst].
  destruct (m_correct (t p) (t_bien_forme p Hp)) as (Hbf & _).
  rewrite t_total, m_total, t_total by auto. done.
Qed.
End Conservation.

Lemma mouvement_conserve_total (d : string) : conserve_total (mouvement d).
Proof.
  assert (Hg : conserve_total gauche) by (intros p _; apply total_gauche).
  assert (Hd : conserve_total droite).
  { apply conjugue_conserve_total;
      auto using inverse_bien_forme, gauche_correct.
    intros p _. apply total_reverse_rows. }
  assert (Hh : conserve_total haut).
  { apply conjugue_conserve_total;
      auto using transpose_bien_forme, total_transpose, gauche_correct. }
  assert (Hb : conserve_total bas).
  { apply conjugue_conserve_total;
      auto using transpose_bien_forme, total_transpose, droite_correct. }
  unfold mouvement.
  repeat match goal with
         | |- context [String.eqb d ?s] => destruct (String.eqb d s); [done|]
         end.
  intros p _. done.
Qed.

(** X1. Whatever the direction, the move of a board of [TAILLE] by [TAILLE]
    cells returns a candidate whose cells have the same sum as those of the
    input: a merge puts the sum of two tiles in one cell. *)
Theorem coup_conserve_total (p : plateau) (d : string) :
  bien_forme p →
  ∃ cand pts, coup p d = Ret (cand, pts) ∧ total cand = total p.
Proof.
  intros Hp. exists (mouvement d p).1, (mouvement d p).2. split.
  - rewrite coup_spec by done. by destruct (mouvement d p).
  - by apply mouvement_conserve_total.
Qed.

Lemma coup_conserve_total_witness :
  ∃ cand pts, coup plateau_fusion "b" = Ret (cand, pts)
              ∧ total cand = total plateau_fusion.
Proof. apply (coup_conserve_total plateau_fusion "b" plateau_fusion_bien_forme). Defined.

Lemma somme_insert (l : list Z) : ∀ j x v,
  l !! j = Some x → somme (<[j := v]> l) = somme l + v - x.
Proof.
  unfold somme.
  induction l as [|y l IH]; intros [|j] x v Hj; simplify_eq/=; [lia|].
  rewrite (IH j x v) by done. lia.
Qed.

Lemma total_insert (p : plateau) : ∀ i l l',
  p !! i = Some l → total (<[i := l']> p) = total p + somme l' - somme l.
Proof.
  induction p as [|m p IH]; intros [|i] l l' Hi; simplify_eq/=.
  - rewrite !total_cons. lia.
  - rewrite !total_cons, (IH i l l') by done. lia.
Qed.

(** X2. One turn on a board of [TAILLE] by [TAILLE] cells, the draw being
    in the interval from 0 to 1: [jouer_coup] returns a board of [TAILLE] by
    [TAILLE] cells; when the move has changed nothing the sum and the number
    of tiles are those of the input, otherwise the board returned is the
    candidate with one tile more and a sum greater by 2 than the input's. *)
Theorem jouer_coup_bilan (p : plateau) (d : string) (k : nat) (r : Q) :
  bien_forme p → tirage r →
  ∃ cand pts nouveau fini,
    coup p d = Ret (cand, pts)
    ∧ jouer_coup p d k r = Ret (nouveau, pts, fini)
    ∧ bien_forme nouveau
    ∧ (cand = p → nouveau = p)
    ∧ (cand ≠ p →
       total nouveau = total p + 2
       ∧ nb_tuiles nouveau = S (nb_tuiles cand)).
Proof.
  intros Hp Hr.
  destruct (mouvement_est_correct d p Hp) as (Hbf & _ & Hch).
  pose proof (mouvement_conserve_total d p Hp) as Htot.
  exists (mouvement d p).1, (mouvement d p).2.
  rewrite jouer_coup_spec, coup_spec by done.
  destruct (mouvement d p) as [cand pts]. cbn [fst snd] in *.
  destruct (decide (p = cand)) as [<-|Hne].
  - exists p, (terminee p). rewrite bool_decide_eq_true_2 by done.
    repeat (split; [done|]). done.
  - rewrite bool_decide_eq_false_2 by done.
    destruct (ajouter_tuile_deux cand k r Hbf (Hch (not_eq_sym Hne)) Hr)
      as (i & j & l & Hi & Hj & ->).
    rewrite bind_Ret. eexists _, _. split; [done|]. split; [done|].
    split; [by apply bien_forme_insert|]. split; [congruence|].
    intros _. split.
    + rewrite (total_insert _ i l) by done.
      rewrite (somme_insert l j 0) by done. lia.
    + apply (nb_tuiles_insert _ i l); [done|]. by apply nb_non_vides_insert.
Qed.

Lemma jouer_coup_bilan_witness :
  ∃ cand pts nouveau fini,
    coup plateau_fusion "g" = Ret (cand, pts)
    ∧ jouer_coup plateau_fusion "g" 0 (1 # 2) = Ret (nouveau, pts, fini)
    ∧ bien_forme nouveau
    ∧ (cand = plateau_fusion → nouveau = plateau_fusion)
    ∧ (cand ≠ plateau_fusion →
       total nouveau = total plateau_fusion + 2
       ∧ nb_tuiles nouveau = S (nb_tuiles cand)).
Proof.
  apply (jouer_coup_bilan plateau_fusion "g" 0 (1 # 2)
           plateau_fusion_bien_forme tirage_un_demi).
Defined.

Section Preservation.
Variables (Q : plateau → Prop) (t : plateau → plateau) (m : plateau → plateau * Z).
Hypothesis t_bien_forme : ∀ p, bien_forme p → bien_forme (t p).
Hypothesis t_preserve : ∀ p, bien_forme p → Q p → Q (t p).
Hypothesis m_correct : mouvement_correct m.
Hypothesis m_preserve : preserve Q m.

Lemma conjugue_preserve : preserve Q (conjugue t m).
Proof.
  intros p Hp Hq. unfold conjugue. cbn [fst].
  destruct (m_correct (t p) (t_bien_forme p Hp)) as (Hbf & _).
  apply t_preserve; [done|]. apply m_preserve; auto.
Qed.
End Preservation.

Section Cellules.
Variable P : Z → Prop.
Hypothesis P_zero : P 0.
Hypothesis P_double : ∀ x, P x → P (x * 2).

Lemma fusion_Forall (l : list Z) : Forall P l → Forall P (fusion l).1.
Proof.
  induction l as [|x|x l IH|x y l Hxy IH] using fusion_induction;
    [done..| |]; intros H; apply Forall_cons in H as [Hx H].
  - rewrite fusion_egal. cbn [fst]. apply Forall_cons in H as [_ H].
    apply Forall_cons. auto.
  - rewrite fusion_distinct by done. cbn [fst]. apply Forall_cons. auto.
Qed.

Lemma deplace_Forall (l : list Z) : Forall P l → Forall P (deplace l).1.
Proof.
  intros H. unfold deplace, complete. cbn [fst]. apply Forall_app. split.
  - apply fusion_Forall. rewrite Forall_forall in *.
    intros x Hx. apply list_elem_of_filter in Hx as [_ Hx]. auto.
  - apply Forall_forall. intros x Hx. by apply elem_of_replicate in Hx as [-> _].
Qed.

Lemma gauche_partout (p : plateau) : partout P p → partout P (gauche p).1.
Proof.
  unfold partout, gauche. cbn [fst]. intros H. apply Forall_fmap.
  eapply Forall_impl; [exact H|]. intros l Hl. by apply deplace_Forall.
Qed.

Lemma reverse_rows_partout (p : plateau) :
  partout P p → partout P (Spec.reverse_rows p).
Proof.
  unfold partout, Spec.reverse_rows. intros H. apply Forall_fmap.
  eapply Forall_impl; [exact H|]. intros l Hl. simpl.
  apply Forall_forall. intros x Hx. rewrite elem_of_reverse in Hx.
  by apply (proj1 (Forall_forall _ _) Hl).
Qed.

Lemma transpose_partout (p : plateau) :
  bien_forme p → partout P p → partout P (Spec.transpose p).
Proof.
  intros (a0&a1&a2&a3&b0&b1&b2&b3&c0&c1&c2&c3&d0&d1&d2&d3&->)%bien_forme_inv.
  unfold partout, Spec.transpose. cbn.
  rewrite !Forall_cons, !Forall_nil. tauto.
Qed.

Lemma mouvement_partout (d : string) : preserve (partout P) (mouvement d).
Proof.
  assert (Hg : preserve (partout P) gauche)
    by (intros p _; apply gauche_partout).
  assert (Hd : preserve (partout P) droite).
  { apply conjugue_preserve; auto using inverse_bien_forme, gauche_correct.
    intros p _. apply reverse_rows_partout. }
  assert (Hh : preserve (partout P) haut).
  { apply conjugue_preserve;
      auto using transpose_bien_forme, transpose_partout, gauche_correct. }
  assert (Hb : preserve (partout P) bas).
  { apply conjugue_preserve;
      auto using transpose_bien_forme, transpose_partout, droite_correct. }
  unfold mouvement.
  repeat match goal with
         | |- context [String.eqb d ?s] => destruct (String.eqb d s); [done|]
         end.
  intros p _ H. done.
Qed.

Lemma insert_partout (p : plateau) i j l v :
  partout P p → p !! i = Some l → P v → partout P (<[i := <[j := v]> l]> p).
Proof.
  unfold partout. intros Hp Hi Hv. apply Forall_insert; [done|].
  apply Forall_insert; [|done].
  rewrite Forall_forall in Hp. apply Hp. by eapply list_elem_of_lookup_2.
Qed.
End Cellules.

Lemma tuile_valide_double (x : Z) :
  tuile_valide x = true → tuile_valide (x * 2) = true.
Proof.
  unfold tuile_valide. rewrite !orb_true_iff, !andb_true_iff.
  rewrite !Z.eqb_eq, !Z.leb_le. intros [->|[H2 Hx]]; [by left|right].
  split; [lia|]. rewrite (Z.mul_comm x 2), Z.log2_double by lia.
  rewrite Z.pow_succ_r by apply Z.log2_nonneg. lia.
Qed.

Lemma tuile_valide_positive (x : Z) : tuile_valide x = true → 0 ≤ x.
Proof.
  unfold tuile_valide. rewrite orb_true_iff, andb_true_iff, Z.eqb_eq, Z.leb_le.
  lia.
Qed.

(** X3. The data invariant of the board is kept by a turn: on a board of
    [TAILLE] by [TAILLE] cells whose cells are all empty or powers of two
    from 2 on, with a draw in the interval from 0 to 1, [jouer_coup] returns
    a board whose cells are all empty or powers of two from 2 on. *)
Theorem jouer_coup_tuiles_valides (p : plateau) (d : string) (k : nat) (r : Q) :
  bien_forme p → partout (λ x, tuile_valide x = true) p → tirage r →
  ∃ nouveau pts fini,
    jouer_coup p d k r = Ret (nouveau, pts, fini)
    ∧ partout (λ x, tuile_valide x = true) nouveau.
Proof.
  intros Hp Hv Hr.
  destruct (mouvement_est_correct d p Hp) as (Hbf & _ & Hch).
  pose proof (mouvement_partout _ eq_refl tuile_valide_double d p Hp Hv) as Hc.
  rewrite jouer_coup_spec by done.
  destruct (mouvement d p) as [cand pts]. cbn [fst snd] in *.
  destruct (decide (p = cand)) as [<-|Hne].
  - rewrite bool_decide_eq_true_2 by done. by eexists _, _, _.
  - rewrite bool_decide_eq_false_2 by done.
    destruct (ajouter_tuile_deux cand k r Hbf (Hch (not_eq_sym Hne)) Hr)
      as (i & j & l & Hi & Hj & ->).
    rewrite bind_Ret. eexists _, _, _. split; [done|].
    by apply insert_partout.
Qed.

Lemma plateau_fusion_valide : partout (λ x, tuile_valide x = true) plateau_fusion.
Proof. repeat constructor. Defined.

Lemma jouer_coup_tuiles_valides_witness :
  ∃ nouveau pts fini,
    jouer_coup plateau_fusion "h" 2 (1 # 2) = Ret (nouveau, pts, fini)
    ∧ partout (λ x, tuile_valide x = true) nouveau.
Proof.
  apply (jouer_coup_tuiles_valides plateau_fusion "h" 2 (1 # 2)
           plateau_fusion_bien_forme plateau_fusion_valide tirage_un_demi).
Defined.

Lemma fusion_points_positifs (l : list Z) :
  Forall (λ x, 0 ≤ x) l → 0 ≤ (fusion l).2.
Proof.
  induction l as [|x|x l IH|x y l Hxy IH] using fusion_induction;
    [done..| |]; intros H; apply Forall_cons in H as [Hx H].
  - rewrite fusion_egal. cbn [snd]. apply Forall_cons in H as [_ H].
    specialize (IH H). lia.
  - rewrite fusion_distinct by done. cbn [snd]. auto.
Qed.

Lemma gauche_points_positifs (p : plateau) :
  partout (λ x, 0 ≤ x) p → 0 ≤ (gauche p).2.
Proof.
  unfold partout, gauche. cbn [snd]. induction 1 as [|l p Hl _ IH]; [done|].
  rewrite fmap_cons. unfold somme in *. cbn [foldr].
  assert (0 ≤ (deplace l).2); [|lia].
  unfold deplace. cbn [snd]. apply fusion_points_positifs.
  rewrite Forall_forall in *. intros x Hx.
  apply list_elem_of_filter in Hx as [_ Hx]. auto.
Qed.

(** X4. On a board of [TAILLE] by [TAILLE] cells none of which is negative,
    the points a move returns are never negative, whatever the direction. *)
Theorem coup_points_positifs (p : plateau) (d : string) :
  bien_forme p → partout (λ x, 0 ≤ x) p →
  ∃ cand pts, coup p d = Ret (cand, pts) ∧ 0 ≤ pts.
Proof.
  intros Hp Hpos. exists (mouvement d p).1, (mouvement d p).2. split.
  { rewrite coup_spec by done. by destruct (mouvement d p). }
  assert (Hr : ∀ q, partout (λ x, 0 ≤ x) q →
                    partout (λ x, 0 ≤ x) (Spec.reverse_rows q)).
  { intros q. apply reverse_rows_partout. }
  assert (Ht : partout (λ x, 0 ≤ x) (Spec.transpose p)).
  { apply transpose_partout; done. }
  unfold mouvement, bas, haut, droite, conjugue.
  repeat match goal with
         | |- context [String.eqb d ?s] => destruct (String.eqb d s)
         end; cbn [snd]; auto using gauche_points_positifs.
  done.
Qed.

Lemma plateau_fusion_positif : partout (λ x, 0 ≤ x) plateau_fusion.
Proof. repeat constructor; discriminate. Defined.

Lemma coup_points_positifs_witness :
  ∃ cand pts, coup plateau_fusion "d" = Ret (cand, pts) ∧ 0 ≤ pts.
Proof.
  apply (coup_points_positifs plateau_fusion "d"
           plateau_fusion_bien_forme plateau_fusion_positif).
Defined.

Lemma adjacents_paire (l : list Z) : ∀ x, adjacents (x :: l) = paire l x.
Proof.
  induction l as [|y l IH]; intros x; [done|].
  rewrite adjacents_cons, IH. cbn [paire]. by rewrite (Z.eqb_sym x y).
Qed.

Lemma paire_adjacents (l : list Z) (last : Z) :
  paire l last = false → adjacents l = false.
Proof.
  destruct l as [|x l]; [done|]. cbn [paire]. rewrite orb_false_iff.
  intros [_ H]. by rewrite adjacents_paire.
Qed.

Lemma adjacents_lookup (l : list Z) :
  adjacents l = false
  ↔ ∀ i x y, l !! i = Some x → l !! S i = Some y → x ≠ y.
Proof.
  induction l as [|a l IH]; [by split|].
  destruct l as [|b l].
  - split; [|done]. by intros _ [|i] x y.
  - rewrite adjacents_cons, orb_false_iff, IH, Z.eqb_neq. split.
    + intros [Hab H] [|i] x y Hx Hy; simplify_eq/=; [done|]. by eapply H.
    + intros H. split; [by apply (H 0%nat)|].
      intros i x y Hx Hy. by apply (H (S i)).
Qed.

Lemma adjacents_reverse (l : list Z) :
  adjacents l = false → adjacents (reverse l) = false.
Proof.
  rewrite !adjacents_lookup. intros H i x y Hx Hy.
  apply lookup_lt_Some in Hy as Hlt. rewrite length_reverse in Hlt.
  rewrite reverse_lookup in Hx, Hy by lia.
  replace (length l - S i)%nat with (S (length l - S (S i))) in Hx by lia.
  intros ->. by eapply H.
Qed.

Lemma bloquee_reverse (l : list Z) : bloquee l → bloquee (reverse l).
Proof.
  intros (Hnz & Hadj & Hlen). split; [|split].
  - apply Forall_forall. intros x Hx. rewrite elem_of_reverse in Hx.
    by apply (proj1 (Forall_forall _ _) Hnz).
  - by apply adjacents_reverse.
  - by rewrite length_reverse.
Qed.

Lemma deplace_bloquee (l : list Z) : bloquee l → deplace l = (l, 0).
Proof.
  intros (Hnz & Hadj & Hlen). unfold deplace.
  rewrite supprimer_zeros_id, fusion_sans_adjacents by done. cbn [fst snd].
  unfold complete. rewrite Hlen, Nat.sub_diag. simpl. by rewrite app_nil_r.
Qed.

Lemma gauche_bloquee (q : plateau) : Forall bloquee q → gauche q = (q, 0).
Proof.
  intros H. unfold gauche. f_equal.
  - induction H as [|l q Hl _ IH]; [done|].
    by rewrite fmap_cons, IH, (deplace_bloquee l Hl).
  - unfold somme. induction H as [|l q Hl _ IH]; [done|].
    rewrite fmap_cons. cbn [foldr]. by rewrite IH, (deplace_bloquee l Hl).
Qed.

Lemma droite_bloquee (q : plateau) : Forall bloquee q → droite q = (q, 0).
Proof.
  intros H. unfold droite, conjugue. rewrite gauche_bloquee.
  - cbn [fst snd]. by rewrite inverse_involutive.
  - unfold Spec.reverse_rows. apply Forall_fmap.
    eapply Forall_impl; [exact H|]. intros l. apply bloquee_reverse.
Qed.

Lemma non_vide_sans_zero (p : plateau) :
  ¬ a_vide p → Forall (Forall (λ v, v ≠ 0)) p.
Proof.
  intros H. apply Forall_forall. intros l Hl. apply Forall_forall.
  intros x Hx ->. apply H. apply Exists_exists. by exists l.
Qed.

Lemma terminee_bloquee (p : plateau) :
  bien_forme p → terminee p = true →
  Forall bloquee p ∧ Forall bloquee (Spec.transpose p).
Proof.
  intros Hp. unfold terminee.
  rewrite !andb_true_iff, bool_decide_eq_true, !negb_true_iff, !existsb_false.
  intros [[Hnil Hc] Hr].
  apply (cases_vides_nil p Hp) in Hnil.
  pose proof (transpose_bien_forme p Hp) as Htp.
  assert (Hnil' : ¬ a_vide (Spec.transpose p)).
  { intros Hv. apply Hnil. rewrite <- (transpose_involutive p Hp).
    by apply transpose_vide. }
  apply non_vide_sans_zero in Hnil, Hnil'.
  rewrite Forall_forall in Hnil, Hnil'. split.
  - apply Forall_forall. intros l Hl. split; [auto|]. split.
    + apply list_elem_of_lookup in Hl as Hn. destruct Hn as [n Hn].
      apply lookup_lt_Some in Hn as Hlt. destruct Hp as [Hlen _].
      apply (paire_adjacents l 0).
      rewrite <- (Hr n) by (apply elem_of_seq; lia).
      unfold rangee. by rewrite (list_lookup_total_correct _ _ _ Hn).
    + destruct Hp as [_ Hrows]. by apply (proj1 (Forall_forall _ _) Hrows).
  - apply Forall_forall. intros l Hl. split; [auto|]. split.
    + unfold Spec.transpose in Hl.
      apply list_elem_of_fmap in Hl as (n & -> & Hn).
      by apply (paire_adjacents _ 0), Hc.
    + destruct Htp as [_ Hrows]. by apply (proj1 (Forall_forall _ _) Hrows).
Qed.

Lemma mouvement_bloque (p : plateau) (d : string) :
  bien_forme p → terminee p = true → mouvement d p = (p, 0).
Proof.
  intros Hp Ht. destruct (terminee_bloquee p Hp Ht) as [Hrows Hcols].
  unfold mouvement, bas, haut.
  repeat match goal with
         | |- context [String.eqb d ?s] => destruct (String.eqb d s)
         end;
    [by apply gauche_bloquee | by apply droite_bloquee | | | done];
    unfold conjugue.
  - rewrite gauche_bloquee by done. cbn [fst snd].
    by rewrite transpose_involutive.
  - rewrite droite_bloquee by done. cbn [fst snd].
    by rewrite transpose_involutive.
Qed.

(** X5. A terminal board offers no move: on a board of [TAILLE] by [TAILLE]
    cells on which [_partie_terminee] answers [True], [jouer_coup] returns,
    whatever the direction and the draws, the same board, 0 points and the
    flag [True]. *)
Theorem jouer_coup_partie_terminee (p : plateau) (d : string) (k : nat) (r : Q) :
  bien_forme p → _partie_terminee p = Ret true →
  jouer_coup p d k r = Ret (p, 0, true).
Proof.
  intros Hp Hfin. rewrite partie_terminee_spec in Hfin by done.
  injection Hfin as Hfin.
  rewrite jouer_coup_spec, (mouvement_bloque p d Hp Hfin) by done.
  cbn [fst snd]. by rewrite bool_decide_eq_true_2, Hfin.
Qed.

Lemma jouer_coup_partie_terminee_witness :
  jouer_coup plateau_bloque "h" 7 (1 # 2) = Ret (plateau_bloque, 0, true).
Proof.
  apply (jouer_coup_partie_terminee plateau_bloque "h" 7 (1 # 2)
           plateau_bloque_bien_forme).
  reflexivity.
Defined.

Section Changement.
Variables (t : plateau → plateau) (m : plateau → plateau * Z).
Hypothesis t_involutive : ∀ p, bien_forme p → t (t p) = p.
Hypothesis t_bien_forme : ∀ p, bien_forme p → bien_forme (t p).
Hypothesis m_correct : mouvement_correct m.

Lemma conjugue_change (p : plateau) :
  bien_forme p → (m (t p)).1 ≠ t p → (conjugue t m p).1 ≠ p.
Proof.
  intros Hp Hne Heq. apply Hne. unfold conjugue in Heq. cbn [fst] in Heq.
  destruct (m_correct (t p) (t_bien_forme p Hp)) as (Hbf & _).
  by rewrite <- (t_involutive _ Hbf), Heq.
Qed.
End Changement.

Lemma gauche_change (p : plateau) (l : list Z) :
  l ∈ p → (deplace l).1 ≠ l → (gauche p).1 ≠ p.
Proof.
  unfold gauche. cbn [fst]. intros Hl Hne Heq. apply Hne. clear Hne.
  induction p as [|l' p IH]; [by apply elem_of_nil in Hl|].
  rewrite fmap_cons in Heq. injection Heq as H1 H2.
  apply elem_of_cons in Hl as [->|Hl]; auto.
Qed.

Lemma deplace_tasse (l : list Z) :
  (deplace l).1 = l →
  ∃ m k, l = m ++ replicate k 0 ∧ Forall (λ v, v ≠ 0) m.
Proof.
  intros H. exists (fusion (_supprimer_zeros l)).1.
  eexists. split; [symmetry; exact H|].
  apply fusion_sans_zero, supprimer_zeros_sans_zero.
Qed.

(** A row with an empty cell and a tile is moved by one of the two
    horizontal moves. *)
Lemma deplace_mixte (l : list Z) :
  mixte l → (deplace l).1 ≠ l ∨ (deplace (reverse l)).1 ≠ reverse l.
Proof.
  intros [H0 Ht].
  destruct (decide ((deplace l).1 = l)) as [Hg|Hg]; [|by left].
  right. intros Hd.
  apply deplace_tasse in Hg as (m & k & Hl & Hm).
  apply deplace_tasse in Hd as (m' & k' & Hl' & Hm').
  assert (Hhead : ∃ x, head l = Some x ∧ x ≠ 0).
  { destruct m as [|x m].
    - exfalso. apply Exists_exists in Ht as (x & Hx & Hnz).
      rewrite Hl in Hx. simpl in Hx. by apply elem_of_replicate in Hx as [-> _].
    - exists x. rewrite Hl. split; [done|]. by apply Forall_cons in Hm as [? _]. }
  assert (Hlast : last (reverse l) = Some 0).
  { rewrite Hl'. destruct k' as [|k'].
    - exfalso. simpl in Hl'. rewrite app_nil_r in Hl'.
      rewrite <- elem_of_reverse, Hl' in H0.
      by apply (proj1 (Forall_forall _ _) Hm') in H0.
    - rewrite replicate_S_end, (assoc_L (++)). apply last_snoc. }
  rewrite last_reverse in Hlast. destruct Hhead as (x & Hx & Hnz). congruence.
Qed.

Lemma deplace_adjacents (l : list Z) :
  Forall (λ v, v ≠ 0) l → adjacents l = true → (deplace l).1 ≠ l.
Proof.
  intros Hnz Hadj Heq. apply (f_equal _supprimer_zeros) in Heq.
  rewrite supprimer_zeros_deplace, supprimer_zeros_id in Heq by done.
  apply fusion_adjacents in Hadj. rewrite Heq in Hadj. lia.
Qed.

Lemma paire_sans_zero (l : list Z) :
  Forall (λ v, v ≠ 0) l → paire l 0 = adjacents l.
Proof.
  destruct 1 as [|x l Hx Hl]; [done|]. cbn [paire].
  rewrite adjacents_paire. by destruct (Z.eqb_spec x 0).
Qed.

Lemma mixte_change (q : plateau) :
  Exists mixte q → (gauche q).1 ≠ q ∨ (droite q).1 ≠ q.
Proof.
  intros (l & Hl & Hm)%Exists_exists.
  destruct (deplace_mixte l Hm) as [Hg|Hd].
  - left. by eapply gauche_change.
  - right. unfold droite, conjugue. cbn [fst]. intros Heq.
    apply (f_equal Spec.reverse_rows) in Heq.
    rewrite inverse_involutive in Heq. revert Heq.
    apply (gauche_change _ (reverse l)); [|done].
    unfold Spec.reverse_rows. by apply list_elem_of_fmap_2.
Qed.

(** On a board with an empty cell and a tile, a row or a column holds
    both. *)
Lemma a_vide_a_tuile_mixte (p : plateau) :
  bien_forme p → a_vide p → a_tuile p →
  Exists mixte p ∨ Exists mixte (Spec.transpose p).
Proof.
  intros Hp Hv Ht. unfold mixte.
  destruct (decide (Exists (λ l, 0 ∈ l ∧ Exists (λ x, x ≠ 0) l) p))
    as [|Hno]; [by left|right].
  assert (Hno' : ∀ l, l ∈ p → ¬ (0 ∈ l ∧ Exists (λ x, x ≠ 0) l)).
  { intros l Hl Hm. apply Hno, Exists_exists. eauto. }
  clear Hno. rename Hno' into Hno.
  apply Exists_exists in Hv as (r0 & Hr0 & H0).
  apply Exists_exists in Ht as (r1 & Hr1 & H1).
  assert (Hz0 : Forall (λ x, x = 0) r0).
  { apply Forall_forall. intros x Hx. destruct (decide (x = 0)); [done|].
    exfalso. apply (Hno r0 Hr0). split; [done|]. apply Exists_exists. eauto. }
  assert (Hz1 : Forall (λ x, x ≠ 0) r1).
  { apply Forall_forall. intros x Hx ->. by apply (Hno r1 Hr1). }
  destruct Hp as [Hlen Hrows]. rewrite Forall_forall in Hrows.
  pose proof (Hrows r0 Hr0) as Hl0. pose proof (Hrows r1 Hr1) as Hl1.
  destruct r0 as [|x0 r0']; [done|]. destruct r1 as [|x1 r1']; [done|].
  apply Forall_cons in Hz0 as [-> _]. apply Forall_cons in Hz1 as [Hx1 _].
  apply Exists_exists. exists (colonne p 0). split.
  - unfold Spec.transpose. apply (list_elem_of_fmap_2 (colonne p) _ 0%nat).
    apply elem_of_seq. unfold TAILLE. lia.
  - split.
    + unfold colonne. apply list_elem_of_fmap. by exists (0 :: r0').
    + apply Exists_exists. exists x1. split; [|done].
      unfold colonne. apply list_elem_of_fmap. by exists (x1 :: r1').
Qed.

(** On a board that is not terminal and is not empty, one of the four moves
    changes the board. *)
Lemma non_terminee_change (p : plateau) :
  bien_forme p → a_tuile p → terminee p = false →
  (gauche p).1 ≠ p ∨ (droite p).1 ≠ p ∨ (haut p).1 ≠ p ∨ (bas p).1 ≠ p.
Proof.
  intros Hp Ht Hfin.
  pose proof (transpose_bien_forme p Hp) as Htp.
  assert (Hhaut : (gauche (Spec.transpose p)).1 ≠ Spec.transpose p →
                  (haut p).1 ≠ p).
  { apply conjugue_change;
      auto using transpose_involutive, transpose_bien_forme, gauche_correct. }
  assert (Hbas : (droite (Spec.transpose p)).1 ≠ Spec.transpose p →
                 (bas p).1 ≠ p).
  { apply conjugue_change;
      auto using transpose_involutive, transpose_bien_forme, droite_correct. }
  destruct (decide (a_vide p)) as [Hv|Hv].
  - destruct (a_vide_a_tuile_mixte p Hp Hv Ht) as [Hm|Hm];
      apply mixte_change in Hm as [?|?]; auto.
  - assert (Hv' : ¬ a_vide (Spec.transpose p)).
    { intros H. apply Hv. rewrite <- (transpose_involutive p Hp).
      by apply transpose_vide. }
    apply non_vide_sans_zero in Hv as Hnz, Hv' as Hnz'.
    rewrite Forall_forall in Hnz, Hnz'.
    apply (cases_vides_nil p Hp) in Hv. unfold terminee in Hfin.
    rewrite bool_decide_eq_true_2 in Hfin by done. cbn [andb] in Hfin.
    apply andb_false_iff in Hfin as [Hc|Hr].
    + apply negb_false_iff, existsb_exists in Hc as (n & Hn & Hpaire).
      apply list_elem_of_In in Hn.
      assert (Hin : colonne p n ∈ Spec.transpose p).
      { unfold Spec.transpose. by apply (list_elem_of_fmap_2 (colonne p)). }
      rewrite paire_sans_zero in Hpaire by auto.
      right. right. left. apply Hhaut.
      apply (gauche_change _ (colonne p n)); [done|].
      apply deplace_adjacents; auto.
    + apply negb_false_iff, existsb_exists in Hr as (n & Hn & Hpaire).
      apply list_elem_of_In, elem_of_seq in Hn.
      destruct (lookup_lt_is_Some_2 p n) as [l Hl]; [destruct Hp; lia|].
      unfold rangee in Hpaire.
      rewrite (list_lookup_total_correct _ _ _ Hl) in Hpaire.
      apply list_elem_of_lookup_2 in Hl.
      rewrite paire_sans_zero in Hpaire by auto.
      left. apply (gauche_change _ l); [done|].
      apply deplace_adjacents; auto.
Qed.

(** X6. A board that still has a move is never declared over, and the
    converse of X5: on a board of [TAILLE] by [TAILLE] cells with at least
    one tile on which [_partie_terminee] answers [False], one of the four
    directions returns a candidate that differs from the board, so that
    [jouer_coup] spawns a tile in that direction. *)
Theorem partie_non_terminee_coup (p : plateau) :
  bien_forme p → a_tuile p → _partie_terminee p = Ret false →
  ∃ d cand pts,
    direction_legale d ∧ coup p d = Ret (cand, pts) ∧ cand ≠ p.
Proof.
  intros Hp Ht Hfin. rewrite partie_terminee_spec in Hfin by done.
  injection Hfin as Hfin. unfold direction_legale.
  destruct (non_terminee_change p Hp Ht Hfin) as [H|[H|[H|H]]].
  - exists "g", (gauche p).1, (gauche p).2. split; [repeat constructor|].
    rewrite coup_spec by done. split; [|done].
    change (mouvement "g" p) with (gauche p). by destruct (gauche p).
  - exists "d", (droite p).1, (droite p).2. split; [repeat constructor|].
    rewrite coup_spec by done. split; [|done].
    change (mouvement "d" p) with (droite p). by destruct (droite p).
  - exists "h", (haut p).1, (haut p).2. split; [repeat constructor|].
    rewrite coup_spec by done. split; [|done].
    change (mouvement "h" p) with (haut p). by destruct (haut p).
  - exists "b", (bas p).1, (bas p).2. split; [repeat constructor|].
    rewrite coup_spec by done. split; [|done].
    change (mouvement "b" p) with (bas p). by destruct (bas p).
Qed.

Lemma plateau_fusion_a_tuile : a_tuile plateau_fusion.
Proof. apply Exists_cons_hd, Exists_cons_hd. discriminate. Defined.

Lemma partie_non_terminee_coup_witness :
  ∃ d cand pts,
    direction_legale d ∧ coup plateau_fusion d = Ret (cand, pts)
    ∧ cand ≠ plateau_fusion.
Proof.
  apply (partie_non_terminee_coup plateau_fusion
           plateau_fusion_bien_forme plateau_fusion_a_tuile).
  reflexivity.
Defined.

(** X7. The two transforms undo themselves: [_inverser_lignes] applied
    twice gives back any board, and on a board of [TAILLE] by [TAILLE] cells
    [_transposer] returns a board of the same shape on which it returns the
    first board. *)
Theorem transformations_involutives (p : plateau) :
  bien_forme p →
  _inverser_lignes (_inverser_lignes p) = p
  ∧ bien_forme (_inverser_lignes p)
  ∧ ∃ t, _transposer p = Ret t ∧ bien_forme t ∧ _transposer t = Ret p.
Proof.
  intros Hp. rewrite !inverser_lignes_spec. split; [apply inverse_involutive|].
  split; [by apply inverse_bien_forme|].
  pose proof (transpose_bien_forme p Hp) as Ht.
  exists (Spec.transpose p).
  rewrite !transposer_spec by by apply bien_forme_longueurs.
  by rewrite transpose_involutive.
Qed.

Lemma transformations_involutives_witness :
  _inverser_lignes (_inverser_lignes plateau_tasse) = plateau_tasse
  ∧ bien_forme (_inverser_lignes plateau_tasse)
  ∧ ∃ t, _transposer plateau_tasse = Ret t ∧ bien_forme t
         ∧ _transposer t = Ret plateau_tasse.
Proof. apply (transformations_involutives plateau_tasse plateau_tasse_bien_forme). Defined.

Section Echecs.
Context {A S : Type}.
Implicit Types (body : S → A → outcome S) (l : list A).

(** A loop whose body raises at one of its turns raises, when no turn can
    run out of fuel. *)
Lemma for_loop_raise body l :
  (∀ s x, body s x ≠ OutOfFuel) →
  Exists (λ x, ∀ s, body s x = Raise IndexError) l →
  ∀ s, for_loop body l s = Raise IndexError.
Proof.
  intros Hfuel. induction 1 as [x l Hx|x l _ IH]; intros s; cbn [for_loop].
  - by rewrite Hx.
  - pose proof (Hfuel s x) as Hs.
    destruct (body s x) as [s'|[]|]; [|done..]. rewrite bind_Ret. apply IH.
Qed.
End Echecs.

Lemma getitem_fuel {A : Type} (l : list A) (i : Z) : Py.getitem l i ≠ OutOfFuel.
Proof. unfold Py.getitem. repeat case_match; done. Qed.

Lemma bind_fuel {A B : Type} (m : outcome A) (f : A → outcome B) :
  m ≠ OutOfFuel → (∀ a, f a ≠ OutOfFuel) → m ≫= f ≠ OutOfFuel.
Proof. destruct m as [a|e|]; [intros _ H; apply H|done..]. Qed.

Lemma for_loop_fuel {A S : Type} (body : S → A → outcome S) (l : list A) :
  (∀ s x, body s x ≠ OutOfFuel) → ∀ s, for_loop body l s ≠ OutOfFuel.
Proof.
  intros H. induction l as [|x l IH]; intros s; [done|].
  cbn [for_loop]. by apply bind_fuel.
Qed.

(** X8. [_transposer] reads cell [n] of every row for [n] below [TAILLE]:
    on a board one row of which has fewer than [TAILLE] cells it raises
    [IndexError]. *)
Theorem transposer_ligne_courte (p : plateau) :
  Exists (λ l, (length l < TAILLE)%nat) p → _transposer p = Raise IndexError.
Proof.
  intros (l & Hl & Hlen)%Exists_exists. unfold _transposer.
  apply for_loop_raise.
  - intros s n. apply bind_fuel; [|done]. apply for_loop_fuel.
    intros s' l'. apply bind_fuel; [apply getitem_fuel|done].
  - apply Exists_exists. exists (length l). split.
    { unfold Py.range. apply elem_of_seq. lia. }
    intros s. rewrite for_loop_raise; [done| |].
    + intros s' l'. apply bind_fuel; [apply getitem_fuel|done].
    + apply Exists_exists. exists l. split; [done|]. intros s'.
      rewrite getitem_None; [done|]. by apply lookup_ge_None.
Qed.

Lemma transposer_ligne_courte_witness :
  _transposer plateau_court = Raise IndexError.
Proof.
  apply (transposer_ligne_courte plateau_court).
  apply Exists_cons_tl, Exists_cons_hd. unfold TAILLE. simpl. lia.
Defined.

(** X9. On a board every row of which has [TAILLE] cells at least,
    whatever the number of rows, [_transposer] returns [TAILLE] rows, each
    as long as the board has rows; cell [i] of row [n] is cell [n] of row
    [i] of the board, and the cells of the board beyond column [TAILLE] are
    dropped. *)
Theorem transposer_forme (p : plateau) :
  Forall (λ l, (TAILLE ≤ length l)%nat) p →
  ∃ t, _transposer p = Ret t
       ∧ length t = TAILLE
       ∧ Forall (λ l, length l = length p) t
       ∧ ∀ n i, (n < TAILLE)%nat → cellule t n i = cellule p i n.
Proof.
  intros Hp. exists (Spec.transpose p).
  split; [by apply transposer_spec|]. unfold Spec.transpose.
  split; [by rewrite length_fmap, length_seq|]. split.
  - apply Forall_fmap, Forall_forall. intros n _. simpl.
    by rewrite length_fmap.
  - intros n i Hn. unfold cellule.
    rewrite list_lookup_fmap, lookup_seq_lt by done. simpl.
    rewrite list_lookup_fmap.
    destruct (p !! i) as [l|] eqn:Hl; [|done]. simpl.
    rewrite Forall_forall in Hp. apply list_elem_of_lookup_2, Hp in Hl.
    symmetry. apply list_lookup_lookup_total_lt. lia.
Qed.

Lemma transposer_forme_witness :
  ∃ t, _transposer plateau_large = Ret t
       ∧ length t = TAILLE
       ∧ Forall (λ l, length l = length plateau_large) t
       ∧ ∀ n i, (n < TAILLE)%nat → cellule t n i = cellule plateau_large i n.
Proof.
  apply (transposer_forme plateau_large).
  repeat constructor; unfold TAILLE; simpl; lia.
Defined.

Section Bornes.
Context {A : Type}.
Implicit Types (l : list A) (i : Z).

Lemma getitem_ok l i :
  - Z.of_nat (length l) ≤ i < Z.of_nat (length l) → ∃ x, Py.getitem l i = Ret x.
Proof.
  intros Hi. unfold Py.getitem, Py.norm.
  set (j := if i <? 0 then i + Z.of_nat (length l) else i).
  assert (Hj : 0 ≤ j < Z.of_nat (length l)).
  { unfold j. destruct (Z.ltb_spec i 0); lia. }
  rewrite (proj2 (Z.leb_le _ _)), (proj2 (Z.ltb_lt _ _)) by lia. simpl.
  destruct (lookup_lt_is_Some_2 l (Z.to_nat j)) as [x Hx]; [lia|].
  rewrite Hx. by exists x.
Qed.

Lemma pop_ok l i :
  0 ≤ i < Z.of_nat (length l) →
  ∃ x l', Py.pop l i = Ret (x, l') ∧ S (length l') = length l.
Proof.
  intros Hi. unfold Py.pop, Py.norm.
  rewrite (proj2 (Z.ltb_ge _ _)) by lia.
  rewrite (proj2 (Z.leb_le _ _)), (proj2 (Z.ltb_lt _ _)) by lia. simpl.
  destruct (lookup_lt_is_Some_2 l (Z.to_nat i)) as [x Hx]; [lia|].
  rewrite Hx. eexists _, _. split; [done|].
  rewrite length_delete by eauto. apply lookup_lt_Some in Hx. lia.
Qed.

Lemma insert_length l i x : length (Py.insert l i x) = S (length l).
Proof.
  unfold Py.insert. rewrite length_app. cbn [length].
  rewrite length_take, length_drop. lia.
Qed.
End Bornes.

Lemma fusionner_boucle_retourne (fuel : nat) : ∀ (l : list Z) last points v,
  0 ≤ v ≤ Z.of_nat (length l) →
  Z.of_nat (length l) - v ≤ Z.of_nat fuel →
  ∃ m pts, fusionner_boucle fuel l last points (Z.of_nat (length l)) v
           = Ret (m, pts)
           ∧ (length m ≤ length l)%nat.
Proof.
  induction fuel as [|fuel IH]; intros l last points v Hv Hfuel.
  - rewrite fusionner_boucle_fin by lia. by eexists _, _.
  - rewrite fusionner_boucle_S.
    destruct (Z.ltb_spec v (Z.of_nat (length l))) as [Hlt|Hge];
      [|by eexists _, _].
    destruct (getitem_ok l v) as [x ->]; [lia|]. rewrite bind_Ret.
    destruct (x =? last).
    + destruct (getitem_ok l (v - 1)) as [a ->]; [lia|]. rewrite !bind_Ret.
      destruct (pop_ok (Py.insert l (v - 1) (a * 2)) v) as (y1 & l1 & -> & Hl1).
      { rewrite insert_length. lia. }
      rewrite insert_length in Hl1. rewrite bind_Ret. cbn beta iota.
      destruct (pop_ok l1 v) as (y2 & l2 & -> & Hl2); [lia|].
      rewrite bind_Ret. cbn beta iota.
      replace (Z.of_nat (length l) - 1) with (Z.of_nat (length l2)) by lia.
      destruct (IH l2 0 (points + a * 2) v) as (m & pts & -> & Hm); [lia..|].
      exists m, pts. split; [done|lia].
    + apply IH; lia.
Qed.

(** X10. [_fusionner] returns on every line, also one with zeros, where the
    index [v - 1] can be [-1]: it never raises [IndexError], the fuel of
    its loop is never exhausted, and the line it returns is no longer than
    the one it was given. *)
Theorem fusionner_retourne (l : list Z) :
  ∃ m pts, _fusionner l = Ret (m, pts) ∧ (length m ≤ length l)%nat.
Proof. apply fusionner_boucle_retourne; lia. Qed.

Lemma deplace_forme (l : list Z) :
  ∃ m k, (deplace l).1 = m ++ replicate k 0 ∧ Forall (λ v, v ≠ 0) m.
Proof.
  eexists _, _. split; [reflexivity|].
  apply fusion_sans_zero, supprimer_zeros_sans_zero.
Qed.

Lemma gauche_tasse_a_gauche (p : plateau) : tasse_a_gauche (gauche p).1.
Proof.
  intros n i j x Hij. unfold cellule, gauche. cbn [fst].
  rewrite list_lookup_fmap. destruct (p !! n) as [l|]; [|done].
  destruct (deplace_forme l) as (m & k & Hl & Hm).
  cbn [fmap option_fmap option_map mbind option_bind]. rewrite Hl.
  intros Hi Hj.
  destruct (decide (i < length m)%nat) as [Hlt|Hge].
  - rewrite lookup_app_l in Hi by done.
    apply list_elem_of_lookup_2 in Hi.
    by apply (proj1 (Forall_forall _ _) Hm) in Hi.
  - rewrite lookup_app_r in Hj by lia. by apply lookup_replicate in Hj as [-> _].
Qed.

Lemma droite_tasse_a_droite (p : plateau) :
  bien_forme p →
  ∀ n i j x, (i < j)%nat →
             cellule (droite p).1 n j = Some 0 →
             cellule (droite p).1 n i = Some x → x = 0.
Proof.
  intros Hp n i j x Hij Hj Hi.
  destruct (droite_correct p Hp) as (Hbf & _).
  destruct (cellule_bornes _ n j 0 Hbf Hj) as [_ Hjb].
  destruct (gauche_correct _ (inverse_bien_forme p Hp)) as (Hg & _).
  unfold droite, conjugue in Hi, Hj. cbn [fst] in Hi, Hj.
  rewrite reverse_rows_cellule in Hi, Hj by (done || lia).
  eapply (gauche_tasse_a_gauche (Spec.reverse_rows p) n
            (TAILLE - 1 - j)%nat (TAILLE - 1 - i)%nat); [lia|done..].
Qed.

(** X11. After [_deplacer_gauche] the tiles of every row are packed to the
    left: on a board of [TAILLE] by [TAILLE] cells the move returns a board
    of [TAILLE] by [TAILLE] cells in no row of which a tile stands to the
    right of an empty cell. *)
Theorem deplacer_gauche_tasse (p : plateau) :
  bien_forme p →
  ∃ cand pts,
    _deplacer_gauche p = Ret (cand, pts)
    ∧ bien_forme cand
    ∧ ∀ n i j x, (i < j)%nat →
                 cellule cand n i = Some 0 → cellule cand n j = Some x → x = 0.
Proof.
  intros Hp. exists (gauche p).1, (gauche p).2.
  split; [rewrite deplacer_gauche_spec; by destruct (gauche p)|].
  split; [by apply gauche_correct|].
  apply gauche_tasse_a_gauche.
Qed.

Lemma deplacer_gauche_tasse_witness :
  ∃ cand pts,
    _deplacer_gauche plateau_tasse = Ret (cand, pts)
    ∧ bien_forme cand
    ∧ ∀ n i j x, (i < j)%nat →
                 cellule cand n i = Some 0 → cellule cand n j = Some x → x = 0.
Proof. apply (deplacer_gauche_tasse plateau_tasse plateau_tasse_bien_forme). Defined.

(** X12. [_completer_zeros] returns on every line and never shortens it: a
    line of [TAILLE] cells or more comes back as it is, a shorter one comes
    back with [TAILLE] cells, its own first and zeros after them. *)
Theorem completer_zeros_forme (l : list Z) :
  ∃ l', _completer_zeros l = Ret l'
        ∧ length l' = (length l `max` TAILLE)%nat
        ∧ take (length l) l' = l
        ∧ Forall (λ x, x = 0) (drop (length l) l')
        ∧ ((TAILLE ≤ length l)%nat → l' = l).
Proof.
  exists (complete l). split; [apply completer_zeros_spec|]. unfold complete.
  split; [rewrite length_app, length_replicate; lia|].
  split; [by rewrite take_app_length|]. split.
  - rewrite drop_app_length. apply Forall_forall.
    intros x Hx. by apply elem_of_replicate in Hx as [-> _].
  - intros H. replace (TAILLE - length l)%nat with 0%nat by lia.
    simpl. by rewrite app_nil_r.
Qed.

Lemma vides_ligne_filtre (p : plateau) (i : nat) (js : list nat) :
  (λ j, (i, j)) <$> filter (λ j, cellule p i j = Some 0) js
  = filter (λ c, cellule p c.1 c.2 = Some 0) ((λ j, (i, j)) <$> js).
Proof.
  induction js as [|j js IH]; [done|]. rewrite fmap_cons.
  destruct (decide (cellule p i j = Some 0)).
  - by rewrite !filter_cons_True, fmap_cons, IH.
  - by rewrite !filter_cons_False, IH.
Qed.

Lemma filter_join {A : Type} (P : A → Prop) `{∀ x, Decision (P x)}
  (ls : list (list A)) :
  filter P (mjoin ls) = mjoin (filter P <$> ls).
Proof.
  induction ls as [|l ls IH]; [done|].
  rewrite fmap_cons.
  change (mjoin (l :: ls)) with (l ++ mjoin ls).
  change (mjoin (filter P l :: (filter P <$> ls)))
    with (filter P l ++ mjoin (filter P <$> ls)).
  by rewrite filter_app, IH.
Qed.

Lemma cases_vides_filtre (p : plateau) :
  cases_vides p = filter (λ c, cellule p c.1 c.2 = Some 0) coordonnees.
Proof.
  unfold cases_vides, coordonnees, vides_ligne.
  rewrite filter_join, <- list_fmap_compose.
  f_equal. apply list_fmap_ext. intros _ i _. apply vides_ligne_filtre.
Qed.

Lemma coordonnees_NoDup : NoDup coordonnees.
Proof. apply (bool_decide_unpack _). vm_compute. exact I. Qed.

(** X13. On a board of [TAILLE] by [TAILLE] cells [_get_cases_vides]
    returns the coordinates of the empty cells and nothing else, each one
    once, in the order of the rows and from left to right in a row; the
    list is empty exactly when the board has no empty cell. *)
Theorem get_cases_vides_exact (p : plateau) :
  bien_forme p →
  ∃ cs, _get_cases_vides p = Ret cs
        ∧ cs = filter (λ c, cellule p c.1 c.2 = Some 0) coordonnees
        ∧ NoDup cs
        ∧ (∀ i j, (i, j) ∈ cs ↔ cellule p i j = Some 0)
        ∧ (cs = [] ↔ ¬ a_vide p).
Proof.
  intros Hp. exists (cases_vides p).
  split; [by apply get_cases_vides_spec|].
  split; [apply cases_vides_filtre|]. split.
  - rewrite cases_vides_filtre. apply NoDup_filter, coordonnees_NoDup.
  - split; [|by apply cases_vides_nil].
    intros i j. rewrite elem_of_cases_vides. split; [by intros (_ & _ & H)|].
    intros H. destruct (cellule_bornes p i j 0 Hp H). done.
Qed.

Lemma get_cases_vides_exact_witness :
  ∃ cs, _get_cases_vides plateau_tasse = Ret cs
        ∧ cs = filter (λ c, cellule plateau_tasse c.1 c.2 = Some 0) coordonnees
        ∧ NoDup cs
        ∧ (∀ i j, (i, j) ∈ cs ↔ cellule plateau_tasse i j = Some 0)
        ∧ (cs = [] ↔ ¬ a_vide plateau_tasse).
Proof. apply (get_cases_vides_exact plateau_tasse plateau_tasse_bien_forme). Defined.

Lemma case_fuel (p : plateau) (i j : nat) : case_ p i j ≠ OutOfFuel.
Proof.
  unfold case_. apply bind_fuel; [apply getitem_fuel|].
  intros l. apply getitem_fuel.
Qed.

Lemma case_None (p : plateau) (i j : nat) :
  cellule p i j = None → case_ p i j = Raise IndexError.
Proof.
  unfold cellule, case_. destruct (p !! i) as [l|] eqn:Hl.
  - simpl. intros Hj. rewrite (getitem_lookup p i l Hl), bind_Ret.
    by apply getitem_None.
  - intros _. by rewrite getitem_None.
Qed.

Lemma get_cases_vides_hors_bornes (p : plateau) (i j : nat) :
  (i < TAILLE)%nat → (j < TAILLE)%nat → cellule p i j = None →
  _get_cases_vides p = Raise IndexError.
Proof.
  intros Hi Hj Hc. unfold _get_cases_vides, Py.range.
  assert (Hfuel : ∀ i' current j',
    (x ← case_ p i' j';
     Ret (if x =? 0 then current ++ [(i', j')] else current))
    ≠ (OutOfFuel : outcome (list (nat * nat)))).
  { intros i' current j'. apply bind_fuel; [apply case_fuel|done]. }
  apply for_loop_raise.
  - intros s i'. apply bind_fuel; [|done]. apply for_loop_fuel.
    intros current j'. apply Hfuel.
  - apply Exists_exists. exists i. split; [apply elem_of_seq; lia|].
    intros s. rewrite for_loop_raise; [done|apply Hfuel|].
    apply Exists_exists. exists j. split; [apply elem_of_seq; lia|].
    intros current. by rewrite case_None.
Qed.

(** X14. The three functions that read the board cell by cell expect
    [TAILLE] rows of [TAILLE] cells: on a board that lacks one of these
    cells (a row missing or too short) [_get_cases_vides],
    [_partie_terminee] and [_ajouter_tuile] raise [IndexError]. *)
Theorem plateau_incomplet_IndexError (p : plateau) (i j : nat) :
  (i < TAILLE)%nat → (j < TAILLE)%nat → cellule p i j = None →
  _get_cases_vides p = Raise IndexError
  ∧ _partie_terminee p = Raise IndexError
  ∧ ∀ k r, _ajouter_tuile p k r = Raise IndexError.
Proof.
  intros Hi Hj Hc.
  pose proof (get_cases_vides_hors_bornes p i j Hi Hj Hc) as H.
  unfold _partie_terminee, _ajouter_tuile. by rewrite H.
Qed.

Lemma plateau_incomplet_IndexError_witness :
  _get_cases_vides plateau_court = Raise IndexError
  ∧ _partie_terminee plateau_court = Raise IndexError
  ∧ ∀ k r, _ajouter_tuile plateau_court k r = Raise IndexError.
Proof.
  apply (plateau_incomplet_IndexError plateau_court 1 3);
    [unfold TAILLE; lia..|reflexivity].
Defined.

(** X15. Spawning on a full board is no error: on a board of [TAILLE] by
    [TAILLE] cells without an empty cell [_ajouter_tuile] returns the board
    as it is, whatever the draws. *)
Theorem ajouter_tuile_plateau_plein (p : plateau) (k : nat) (r : Q) :
  bien_forme p → ¬ a_vide p → _ajouter_tuile p k r = Ret p.
Proof.
  intros Hp Hv. unfold _ajouter_tuile.
  rewrite get_cases_vides_spec, bind_Ret by done.
  apply (cases_vides_nil p Hp) in Hv. by rewrite Hv.
Qed.

Lemma plateau_bloque_plein : ¬ a_vide plateau_bloque.
Proof. by apply (cases_vides_nil _ plateau_bloque_bien_forme). Defined.

Lemma ajouter_tuile_plateau_plein_witness :
  _ajouter_tuile plateau_bloque 3 (1 # 2) = Ret plateau_bloque.
Proof.
  apply (ajouter_tuile_plateau_plein plateau_bloque 3 (1 # 2)
           plateau_bloque_bien_forme plateau_bloque_plein).
Defined.




(** X17. The three derived moves pack the tiles on their side: on a board
    of [TAILLE] by [TAILLE] cells, after [_deplacer_droite] no tile of a row
    stands to the left of an empty cell, after [_deplacer_haut] no tile of a
    column stands below an empty cell, and after [_deplacer_bas] no tile of
    a column stands above an empty cell. *)
Theorem deplacements_tassent (p : plateau) :
  bien_forme p →
  (∃ cand pts,
     _deplacer_droite p = Ret (cand, pts)
     ∧ ∀ n i j x, (i < j)%nat →
                  cellule cand n j = Some 0 → cellule cand n i = Some x → x = 0)
  ∧ (∃ cand pts,
       _deplacer_haut p = Ret (cand, pts)
       ∧ ∀ n i j x, (i < j)%nat →
                    cellule cand i n = Some 0 → cellule cand j n = Some x → x = 0)
  ∧ (∃ cand pts,
       _deplacer_bas p = Ret (cand, pts)
       ∧ ∀ n i j x, (i < j)%nat →
                    cellule cand j n = Some 0 → cellule cand i n = Some x → x = 0).
Proof.
  intros Hp. pose proof (transpose_bien_forme p Hp) as Htp.
  split; [|split].
  - exists (droite p).1, (droite p).2. rewrite deplacer_droite_spec.
    split; [by destruct (droite p)|]. by apply droite_tasse_a_droite.
  - exists (haut p).1, (haut p).2. rewrite deplacer_haut_spec by done.
    split; [by destruct (haut p)|].
    destruct (gauche_correct _ Htp) as (Hg & _).
    intros n i j x Hij. unfold haut, conjugue. cbn [fst].
    rewrite !transpose_cellule by done.
    by apply gauche_tasse_a_gauche.
  - exists (bas p).1, (bas p).2. rewrite deplacer_bas_spec by done.
    split; [by destruct (bas p)|].
    destruct (droite_correct _ Htp) as (Hd & _).
    intros n i j x Hij. unfold bas, conjugue. cbn [fst].
    rewrite !transpose_cellule by done.
    by apply droite_tasse_a_droite.
Qed.

Lemma deplacements_tassent_witness :
  (∃ cand pts,
     _deplacer_droite plateau_tasse = Ret (cand, pts)
     ∧ ∀ n i j x, (i < j)%nat →
                  cellule cand n j = Some 0 → cellule cand n i = Some x → x = 0)
  ∧ (∃ cand pts,
       _deplacer_haut plateau_tasse = Ret (cand, pts)
       ∧ ∀ n i j x, (i < j)%nat →
                    cellule cand i n = Some 0 → cellule cand j n = Some x → x = 0)
  ∧ (∃ cand pts,
       _deplacer_bas plateau_tasse = Ret (cand, pts)
       ∧ ∀ n i j x, (i < j)%nat →
                    cellule cand j n = Some 0 → cellule cand i n = Some x → x = 0).
Proof. apply (deplacements_tassent plateau_tasse plateau_tasse_bien_forme). Defined.

Lemma fusion_points_nuls (s : list Z) :
  Forall (λ x, 0 < x) s → (fusion s).2 = 0 → fusion s = (s, 0).
Proof.
  induction s as [|x|x s IH|x y s Hxy IH] using fusion_induction;
    [done..| |]; intros H; apply Forall_cons in H as [Hx H].
  - rewrite fusion_egal. cbn [snd]. apply Forall_cons in H as [_ H].
    assert (0 ≤ (fusion s).2); [|lia].
    apply fusion_points_positifs. eapply Forall_impl; [exact H|].
    simpl. intros; lia.
  - rewrite fusion_distinct by done. cbn [snd]. intros Hp.
    by rewrite (IH H Hp).
Qed.

Lemma nb_non_vides_deplace (l : list Z) :
  nb_non_vides (deplace l).1 = length (fusion (_supprimer_zeros l)).1.
Proof. unfold nb_non_vides. by rewrite supprimer_zeros_deplace. Qed.

Lemma deplace_compte (l : list Z) :
  (nb_non_vides (deplace l).1 ≤ nb_non_vides l)%nat
  ∧ (Forall (λ x, 0 ≤ x) l →
     0 ≤ (deplace l).2
     ∧ ((deplace l).2 = 0 ↔ nb_non_vides (deplace l).1 = nb_non_vides l)).
Proof.
  rewrite nb_non_vides_deplace. unfold nb_non_vides, deplace. cbn [snd].
  split; [apply fusion_length|]. intros Hpos.
  assert (Hs : Forall (λ x, 0 < x) (_supprimer_zeros l)).
  { apply Forall_forall. intros x Hx.
    apply list_elem_of_filter in Hx as [Hnz Hx].
    apply (proj1 (Forall_forall _ _) Hpos) in Hx. lia. }
  split.
  - apply fusion_points_positifs. eapply Forall_impl; [exact Hs|].
    simpl. intros; lia.
  - split.
    + intros H. by rewrite (fusion_points_nuls _ Hs H).
    + intros H. by rewrite (fusion_fixe _ H).
Qed.

Lemma nb_tuiles_cons (l : list Z) (p : plateau) :
  nb_tuiles (l :: p) = (nb_non_vides l + nb_tuiles p)%nat.
Proof. reflexivity. Qed.

Lemma gauche_compte (p : plateau) :
  (nb_tuiles (gauche p).1 ≤ nb_tuiles p)%nat
  ∧ (partout (λ x, 0 ≤ x) p →
     0 ≤ (gauche p).2
     ∧ ((gauche p).2 = 0 ↔ nb_tuiles (gauche p).1 = nb_tuiles p)).
Proof.
  unfold gauche, partout. cbn [fst snd].
  induction p as [|l p [IH1 IH2]]; [done|].
  rewrite !fmap_cons, !nb_tuiles_cons. unfold somme in *. cbn [foldr].
  destruct (deplace_compte l) as [Hl1 Hl2].
  split; [lia|]. intros [Hl Hp]%Forall_cons.
  destruct (Hl2 Hl) as [Hl3 Hl4]. destruct (IH2 Hp) as [IH3 IH4].
  split; [lia|]. split.
  - intros H. assert ((deplace l).2 = 0) as Ha by lia.
    apply Hl4 in Ha. rewrite Ha. f_equal. apply IH4. lia.
  - intros H.
    assert (nb_non_vides (deplace l).1 = nb_non_vides l) as Ha by lia.
    apply Hl4 in Ha. rewrite Ha, Z.add_0_l. apply IH4. lia.
Qed.

Lemma nb_tuiles_reverse_rows (p : plateau) :
  nb_tuiles (Spec.reverse_rows p) = nb_tuiles p.
Proof.
  unfold Spec.reverse_rows. induction p as [|l p IH]; [done|].
  rewrite fmap_cons, !nb_tuiles_cons, IH. f_equal.
  unfold nb_non_vides, _supprimer_zeros.
  by rewrite filter_reverse, length_reverse.
Qed.

Lemma nb_non_vides_indicatrice (x : Z) (l : list Z) :
  nb_non_vides (x :: l) = (indicatrice x + nb_non_vides l)%nat.
Proof. rewrite nb_non_vides_cons. unfold indicatrice. by case_decide. Qed.

Lemma nb_tuiles_transpose (p : plateau) :
  bien_forme p → nb_tuiles (Spec.transpose p) = nb_tuiles p.
Proof.
  intros (a0&a1&a2&a3&b0&b1&b2&b3&c0&c1&c2&c3&d0&d1&d2&d3&->)%bien_forme_inv.
  change (Spec.transpose
            [[a0; a1; a2; a3]; [b0; b1; b2; b3];
             [c0; c1; c2; c3]; [d0; d1; d2; d3]])
    with [[a0; b0; c0; d0]; [a1; b1; c1; d1];
          [a2; b2; c2; d2]; [a3; b3; c3; d3]].
  rewrite !nb_tuiles_cons, !nb_non_vides_indicatrice.
  change (nb_tuiles []) with 0%nat. change (nb_non_vides []) with 0%nat.
  lia.
Qed.

Section Compte.
Variables (t : plateau → plateau) (m : plateau → plateau * Z).
Hypothesis t_bien_forme : ∀ p, bien_forme p → bien_forme (t p).
Hypothesis t_compte : ∀ p, bien_forme p → nb_tuiles (t p) = nb_tuiles p.
Hypothesis t_positif :
  ∀ p, bien_forme p → partout (λ x, 0 ≤ x) p → partout (λ x, 0 ≤ x) (t p).
Hypothesis m_correct : mouvement_correct m.
Hypothesis m_compte : compte_correct m.

Lemma conjugue_compte : compte_correct (conjugue t m).
Proof.
  intros p Hp. unfold conjugue. cbn [fst snd].
  pose proof (t_bien_forme p Hp) as Htp.
  destruct (m_correct (t p) Htp) as (Hbf & _).
  destruct (m_compte (t p) Htp) as [H1 H2].
  rewrite t_compte by done. rewrite t_compte in H1, H2 by done.
  split; [done|]. intros Hpos. apply H2. auto.
Qed.
End Compte.

Lemma mouvement_compte (d : string) : compte_correct (mouvement d).
Proof.
  assert (Hrev : ∀ p, bien_forme p → partout (λ x, 0 ≤ x) p →
                      partout (λ x, 0 ≤ x) (Spec.reverse_rows p)).
  { intros p _. apply reverse_rows_partout. }
  assert (Htr : ∀ p, bien_forme p → partout (λ x, 0 ≤ x) p →
                     partout (λ x, 0 ≤ x) (Spec.transpose p)).
  { intros p. by apply transpose_partout. }
  assert (Hg : compte_correct gauche).
  { intros p _. destruct (gauche_compte p) as [H1 H2]. split; [done|].
    intros Hpos. by apply H2. }
  assert (Hd : compte_correct droite).
  { apply conjugue_compte; auto using inverse_bien_forme, gauche_correct.
    intros p _. apply nb_tuiles_reverse_rows. }
  assert (Hh : compte_correct haut).
  { apply conjugue_compte;
      auto using transpose_bien_forme, nb_tuiles_transpose, gauche_correct. }
  assert (Hb : compte_correct bas).
  { apply conjugue_compte;
      auto using transpose_bien_forme, nb_tuiles_transpose, droite_correct. }
  unfold mouvement.
  repeat match goal with
         | |- context [String.eqb d ?s] => destruct (String.eqb d s); [done|]
         end.
  intros p _. cbn [fst snd]. done.
Qed.

(** X18. A move creates no tile: on a board of [TAILLE] by [TAILLE] cells,
    whatever the direction, the candidate has at most as many tiles as the
    board; when no cell of the board is negative the points of the move are
    0 exactly when the candidate has as many tiles as the board, that is
    when nothing has merged. *)
Theorem coup_compte_tuiles (p : plateau) (d : string) :
  bien_forme p →
  ∃ cand pts,
    coup p d = Ret (cand, pts)
    ∧ (nb_tuiles cand ≤ nb_tuiles p)%nat
    ∧ (partout (λ x, 0 ≤ x) p → (pts = 0 ↔ nb_tuiles cand = nb_tuiles p)).
Proof.
  intros Hp. exists (mouvement d p).1, (mouvement d p).2. split.
  - rewrite coup_spec by done. by destruct (mouvement d p).
  - by apply mouvement_compte.
Qed.

Lemma coup_compte_tuiles_witness :
  ∃ cand pts,
    coup plateau_fusion "g" = Ret (cand, pts)
    ∧ (nb_tuiles cand ≤ nb_tuiles plateau_fusion)%nat
    ∧ (partout (λ x, 0 ≤ x) plateau_fusion →
       (pts = 0 ↔ nb_tuiles cand = nb_tuiles plateau_fusion)).
Proof. apply (coup_compte_tuiles plateau_fusion "g" plateau_fusion_bien_forme). Defined.
